(** * bigbeans: the schema-inference and query-construction core

    A shallow embedding of [bigbeans/databean.py]: the type table
    [VALID_TYPE_MAPPING], the four query builders of [Table], the
    operations of [Table] and the handle cache of [Databean].

    Python data is modelled as follows.
    - [str] is [string]; an f-string is a chain of [+:+]; [sep.join(xs)]
      is [String.concat sep xs]; [str(i)] inside an f-string is [pretty i].
    - a keyword-argument dictionary ([**kwargs]) is an association list in
      insertion order; [kwargs.keys()], [kwargs.values()] and
      [kwargs.items()] are [keys], [values] and the list itself. A call
      binds each keyword once, so the keys of such a list are pairwise
      distinct; where a property needs that, it says so.
    - [match], a sequence of column names, is a [list string].
    - the dictionary [Databean._tables] is a [gmap string Table].
    - exceptions are the [Raise] branch of [outcome]; coroutines that talk
      to the connection pool are functions on a [world] that carries the
      database of the pool, the handle cache and the log of the I/O done. *)

From Stdlib Require Import Ascii.
From stdpp Require Import gmap strings list fin_maps pretty.

Set Default Proof Using "Type".
Set Warnings "-register-all".

(** ** Python values and their runtime types *)

(** The classes that occur as keys of [TYPE_MAPPING], the built-in classes
    of the values a caller can pass, and [OtherClass] for every other
    class, named by its qualified name. [Mapping] is the abstract base
    class [collections.Mapping]; [dict] and [OrderedDict] are the concrete
    mapping classes. *)
Inductive pytype :=
  | py_list | py_str | py_bool | py_bytes | py_int | py_float | py_tuple
  | Mapping | Range | Record_ | BitString | Box | Circle | Line | LineSegment
  | Path | Point | Polygon | Decimal
  | IPv4Network | IPv6Network | IPv4Interface | IPv6Interface
  | IPv4Address | IPv6Address
  | UUID | date | time | datetime
  | py_dict | OrderedDict | NoneType
  | OtherClass (qualname : string).

Global Instance pytype_eq_dec : EqDecision pytype.
Proof. solve_decision. Defined.

(** A runtime value. Only its class matters to the type table; payloads
    are kept where the builders or the collaborator need to look at them.
    [VInstance] is an instance of any class, given with its [repr]. *)
Inductive pyvalue :=
  | VNone
  | VStr (s : string)
  | VBool (b : bool)
  | VBytes (b : list ascii)
  | VInt (z : Z)
  | VFloat (repr : string)
  | VList (items : list pyvalue)
  | VTuple (items : list pyvalue)
  | VDict (items : list (pyvalue * pyvalue))
  | VOrderedDict (items : list (pyvalue * pyvalue))
  | VInstance (cls : pytype) (repr : string).

(** [type(value)]: the class the object was created from. No object has
    an abstract base class as its [type]. *)
Definition type (value : pyvalue) : pytype :=
  match value with
  | VNone => NoneType
  | VStr _ => py_str
  | VBool _ => py_bool
  | VBytes _ => py_bytes
  | VInt _ => py_int
  | VFloat _ => py_float
  | VList _ => py_list
  | VTuple _ => py_tuple
  | VDict _ => py_dict
  | VOrderedDict _ => OrderedDict
  | VInstance cls _ => cls
  end.

(** [isinstance(value, Mapping)]: the values that are key-value mappings. *)
Definition is_mapping (value : pyvalue) : bool :=
  match value with
  | VDict _ | VOrderedDict _ => true
  | _ => false
  end.

(** ** The type table *)

Definition TYPE_MAPPING : list (pytype * string) :=
  [ (py_list, "anyarray");
    (py_str, "text");
    (py_bool, "bool");
    (py_bytes, "bytea");
    (py_int, "bigint");
    (py_float, "float8");
    (py_tuple, "record");
    (Mapping, "record");
    (Range, "anyrange");
    (Record_, "record");
    (BitString, "varbit");
    (Box, "box");
    (Circle, "circle");
    (Line, "line");
    (LineSegment, "lseg");
    (Path, "path");
    (Point, "point");
    (Polygon, "polygon");
    (Decimal, "numeric");
    (IPv4Network, "inet");
    (IPv6Network, "inet");
    (IPv4Interface, "inet");
    (IPv6Interface, "inet");
    (IPv4Address, "inet");
    (IPv6Address, "inet");
    (UUID, "uuid");
    (date, "date");
    (time, "timestamp");
    (datetime, "timestamptz") ].

(** [d[key]] on a dictionary given by its items: the value of the entry
    whose key is equal to [key]. *)
Fixpoint dict_get {K V} `{EqDecision K} (d : list (K * V)) (key : K) : option V :=
  match d with
  | [] => None
  | (k, v) :: d' => if decide (k = key) then Some v else dict_get d' key
  end.

(** [VALID_TYPE_MAPPING = defaultdict(lambda: "text")] updated with
    [TYPE_MAPPING]: subscripting it never raises, a missing key gives the
    value of the default factory. *)
Definition VALID_TYPE_MAPPING (cls : pytype) : string :=
  default "text" (dict_get TYPE_MAPPING cls).

(** The type mapper as [_ensure_beans] uses it:
    [VALID_TYPE_MAPPING[type(value)]]. *)
Definition mapType (value : pyvalue) : string :=
  VALID_TYPE_MAPPING (type value).

(** ** Keyword arguments, rows and exceptions *)

Definition kwargs_t : Type := list (string * pyvalue).

Definition keys (kwargs : kwargs_t) : list string := kwargs.*1.
Definition values (kwargs : kwargs_t) : list pyvalue := kwargs.*2.

(** [enumerate(xs, start)] *)
Definition enumerate {A} (start : nat) (xs : list A) : list (nat * A) :=
  imap (λ i x, (start + i, x)) xs.

(** [range(n)] *)
Definition range (n : nat) : list nat := seq 0 n.

(** [{k: v for k, v in kwargs.items() if k in match}] *)
Definition matching (match_ : list string) (kwargs : kwargs_t) : kwargs_t :=
  filter (λ kv, kv.1 ∈ match_) kwargs.

(** An [asyncpg.Record]: a read-only ordered mapping of column to value. *)
Definition Row : Type := list (string * pyvalue).

Inductive exn :=
  | BeansError (msg : string)
  | UndefinedTableError
  | PostgresError (sqlstate : string)
  | AttributeError (msg : string)
  | TypeError (msg : string)
  | IndexError
  | KeyError (key : string).

Inductive outcome (A : Type) :=
  | Ok (a : A)
  | Raise (e : exn).
Arguments Ok {A} a.
Arguments Raise {A} e.

(** ** The query builders *)

Module Builder.

(** [Table._build_insert_query] *)
Definition _build_insert_query (_name : string) (kwargs : kwargs_t) : string :=
  let query_names := "(" +:+ String.concat ", " (keys kwargs) +:+ ")" in
  let query_values :=
    "(" +:+ String.concat ", "
              ((λ i, "$" +:+ pretty (i + 1)) <$> range (length (values kwargs)))
        +:+ ")" in
  "INSERT INTO " +:+ _name +:+ query_names +:+ " VALUES" +:+ query_values.

(** [Table._build_select_query]. [list(kwargs.keys())[0]] raises
    [IndexError] on an empty dictionary. *)
Definition _build_select_query (_name : string) (kwargs : kwargs_t) : outcome string :=
  match keys kwargs with
  | [] => Raise IndexError
  | k0 :: rest =>
      let base := "SELECT * FROM " +:+ _name +:+ " WHERE " +:+ k0 +:+ " = $1" in
      if decide (length kwargs = 1) then Ok base
      else
        let additional_constraints :=
          (λ ik, " AND " +:+ ik.2 +:+ " = $" +:+ pretty ik.1) <$> enumerate 2 rest in
        Ok (base +:+ String.concat " " additional_constraints +:+ ";")
  end.

(** [Table._build_update_query] *)
Definition _build_update_query (_name : string) (match_ : list string)
    (kwargs : kwargs_t) : string * list pyvalue :=
  let matched_values := matching match_ kwargs in
  let query_values :=
    String.concat ", "
      ((λ ik, ik.2 +:+ " = $" +:+ pretty (ik.1 + 1)) <$> enumerate 0 (keys kwargs)) in
  let constraint_values :=
    (λ ik, ik.2 +:+ " = $" +:+ pretty (ik.1 + 1))
      <$> enumerate (length (keys matched_values) + 1) (keys matched_values) in
  let query :=
    "UPDATE " +:+ _name +:+ " SET " +:+ query_values
      +:+ " WHERE " +:+ String.concat ", " constraint_values +:+ ";" in
  let for_statement := values kwargs ++ values matched_values in
  (query, for_statement).

End Builder.

(** ** The connection pool and the world the coroutines run in *)

(** What a coroutine did to the pool, in order. *)
Inductive event :=
  | Acquire
  | Release
  | Execute (query : string) (args : list pyvalue)
  | Fetch (query : string) (args : list pyvalue)
  | Fetchrow (query : string) (args : list pyvalue).

(** A [Table] object: its [_name], and the stamp [oid] that tells two
    objects apart. [_bean] is the one [Databean] of the world. *)
Record Table := { _name : string; oid : nat }.

(** The connection of the collaborator ([asyncpg]) over a database of
    type [DB]: each call answers or raises, and leaves a database. *)
Record Connection (DB : Type) := {
  execute : string → list pyvalue → DB → outcome unit * DB;
  fetch : string → list pyvalue → DB → outcome (list Row) * DB;
  fetchrow : string → list pyvalue → DB → outcome (option Row) * DB }.
Arguments execute {DB} _ _ _ _.
Arguments fetch {DB} _ _ _ _.
Arguments fetchrow {DB} _ _ _ _.

(** The [Databean]: the database behind [_pool], the handle cache
    [_tables], the stamp of the next object, and the I/O done so far. *)
Record world (DB : Type) := {
  _pool : DB;
  _tables : gmap string Table;
  next_oid : nat;
  io : list event }.
Arguments _pool {DB} _.
Arguments _tables {DB} _.
Arguments next_oid {DB} _.
Arguments io {DB} _.

(** A coroutine awaited to its end. *)
Definition coro (DB A : Type) : Type := world DB → outcome A * world DB.

Global Instance coro_ret {DB} : MRet (coro DB) := λ A a w, (Ok a, w).
Global Instance coro_bind {DB} : MBind (coro DB) := λ A B f m w,
  match m w with
  | (Ok a, w') => f a w'
  | (Raise e, w') => (Raise e, w')
  end.

Definition raise {DB A} (e : exn) : coro DB A := λ w, (Raise e, w).

(** The value of an expression that may raise, inside a coroutine. *)
Definition lift {DB A} (r : outcome A) : coro DB A := λ w, (r, w).

Definition log {DB} (ev : event) (w : world DB) : world DB :=
  {| _pool := _pool w; _tables := _tables w; next_oid := next_oid w;
     io := io w ++ [ev] |}.

(** [async with self._bean._pool.acquire() as connection: body]; the
    connection goes back to the pool on every way out of [body]. *)
Definition async_with_acquire {DB A} (body : coro DB A) : coro DB A := λ w,
  let '(r, w') := body (log Acquire w) in (r, log Release w').

(** [try: body except asyncpg.UndefinedTableError: handler] *)
Definition except_UndefinedTableError {DB A} (body handler : coro DB A) : coro DB A := λ w,
  match body w with
  | (Raise UndefinedTableError, w') => handler w'
  | r => r
  end.

(** Truth value of a dictionary ([if kwargs:]). *)
Definition truthy (kwargs : kwargs_t) : bool :=
  match kwargs with [] => false | _ :: _ => true end.

(** Truth value of what [fetchrow] returned: [None] is false, an
    [asyncpg.Record] is true unless it has no column. *)
Definition truthy_row (r : option Row) : bool :=
  match r with
  | None => false
  | Some row => match row with [] => false | _ :: _ => true end
  end.

(** ** Objects an expression can produce in [Table.delete] *)

(** A [str], or the coroutine object that calling an [async def] returns:
    its body has not run yet. *)
Inductive pyobject :=
  | ObjStr (s : string)
  | ObjCoroutine (body : unit → outcome string).

(** [s.replace(old, new, 1)] on a [str]. *)
Fixpoint str_replace1 (old new s : string) : string :=
  if String.prefix old s
  then new +:+ String.substring (String.length old) (String.length s - String.length old) s
  else match s with
       | EmptyString => EmptyString
       | String c s' => String c (str_replace1 old new s')
       end.

(** [obj.replace(old, new, 1)]: the attribute is looked up on the object
    the call is applied to. *)
Definition call_replace (obj : pyobject) (old new : string) : outcome pyobject :=
  match obj with
  | ObjStr s => Ok (ObjStr (str_replace1 old new s))
  | ObjCoroutine _ =>
      Raise (AttributeError "'coroutine' object has no attribute 'replace'")
  end.

(** [await obj] *)
Definition await (obj : pyobject) : outcome string :=
  match obj with
  | ObjCoroutine body => body ()
  | ObjStr _ => Raise (TypeError "object str can't be used in 'await' expression")
  end.

(** ** The operations of [Table] *)

Definition nl : string := String "010"%char EmptyString.
Definition spaces (n : nat) : string := String.concat "" (replicate n " ").

Module Table.
Section with_connection.
Context {DB : Type} (connection : Connection DB).

Definition connection_execute (query : string) (args : list pyvalue) : coro DB unit :=
  λ w, let '(r, d) := execute connection query args (_pool w) in
       (r, {| _pool := d; _tables := _tables w; next_oid := next_oid w;
              io := io w ++ [Execute query args] |}).

Definition connection_fetch (query : string) (args : list pyvalue) : coro DB (list Row) :=
  λ w, let '(r, d) := fetch connection query args (_pool w) in
       (r, {| _pool := d; _tables := _tables w; next_oid := next_oid w;
              io := io w ++ [Fetch query args] |}).

Definition connection_fetchrow (query : string) (args : list pyvalue) : coro DB (option Row) :=
  λ w, let '(r, d) := fetchrow connection query args (_pool w) in
       (r, {| _pool := d; _tables := _tables w; next_oid := next_oid w;
              io := io w ++ [Fetchrow query args] |}).

(** The text of the [CREATE TABLE] statement of [_ensure_beans]. *)
Definition create_query (self : Table) (to_bean : kwargs_t) : string :=
  let table_details :=
    (λ ikv, ikv.2.1 +:+ " " +:+ VALID_TYPE_MAPPING (type ikv.2.2))
      <$> enumerate 1 to_bean in
  let joined := String.concat ("," +:+ nl +:+ spaces 20) table_details in
  nl +:+ spaces 20 +:+ "CREATE TABLE " +:+ _name self +:+ "("
     +:+ nl +:+ spaces 24 +:+ "_id serial PRIMARY KEY,"
     +:+ nl +:+ spaces 24 +:+ joined
     +:+ nl +:+ spaces 20 +:+ ");"
     +:+ nl +:+ spaces 20.

(** The text of the [ALTER TABLE] statement of [_ensure_beans]. *)
Definition alter_query (self : Table) (to_bean : kwargs_t) : string :=
  let table_details :=
    (λ ikv, "ADD COLUMN IF NOT EXISTS " +:+ ikv.2.1 +:+ " "
              +:+ VALID_TYPE_MAPPING (type ikv.2.2))
      <$> enumerate 1 to_bean in
  let column_query_as_string := String.concat ("," +:+ nl) table_details in
  nl +:+ spaces 20 +:+ "ALTER TABLE " +:+ _name self
     +:+ nl +:+ spaces 20 +:+ column_query_as_string +:+ ";"
     +:+ nl +:+ spaces 20.

Definition _ensure_beans (self : Table) (to_bean : kwargs_t) : coro DB unit :=
  async_with_acquire (
    results ← connection_fetchrow
                "SELECT * FROM pg_tables WHERE tablename = $1" [VStr (_name self)];
    if negb (truthy_row results)
    then connection_execute (create_query self to_bean) []
    else connection_execute (alter_query self to_bean) []).

Definition _build_insert_query (self : Table) (kwargs : kwargs_t) : string :=
  Builder._build_insert_query (_name self) kwargs.

Definition _build_select_query (self : Table) (kwargs : kwargs_t) : outcome string :=
  Builder._build_select_query (_name self) kwargs.

Definition _build_update_query (self : Table) (match_ : list string)
    (kwargs : kwargs_t) : string * list pyvalue :=
  Builder._build_update_query (_name self) match_ kwargs.

Definition all (self : Table) : coro DB (list Row) :=
  async_with_acquire (
    except_UndefinedTableError
      (connection_fetch ("SELECT * FROM " +:+ _name self +:+ ";") [])
      (mret [])).

Definition find (self : Table) (kwargs : kwargs_t) : coro DB (list Row) :=
  async_with_acquire (
    except_UndefinedTableError
      (if truthy kwargs
       then query ← lift (_build_select_query self kwargs);
            connection_fetch query (values kwargs)
       else all self)
      (mret [])).

Definition find_one (self : Table) (kwargs : kwargs_t) : coro DB (option Row) :=
  async_with_acquire (
    except_UndefinedTableError
      (if truthy kwargs
       then query ← lift (_build_select_query self kwargs);
            connection_fetchrow query (values kwargs)
       else connection_fetchrow ("SELECT * FROM " +:+ _name self +:+ " LIMIT 1;") [])
      (mret None)).

Definition insert (self : Table) (kwargs : kwargs_t) : coro DB unit :=
  if negb (truthy kwargs)
  then raise (BeansError
                "Bad insert call - you attempted to insert nothing. Don't do this.")
  else
    _ensure_beans self kwargs;;
    let query := _build_insert_query self kwargs in
    async_with_acquire (connection_execute query (values kwargs)).

Definition update (self : Table) (match_ : list string) (kwargs : kwargs_t) : coro DB unit :=
  if negb (truthy kwargs)
  then raise (BeansError
                "Bad upsert call - you attempted to update nothing. Don't do this.")
  else
    _ensure_beans self kwargs;;
    let '(query, values) := _build_update_query self match_ kwargs in
    async_with_acquire (connection_execute query values).

Definition upsert (self : Table) (match_ : list string) (kwargs : kwargs_t) : coro DB unit :=
  if negb (truthy kwargs)
  then raise (BeansError
                "Bad upsert call - you attempted to upsert nothing. Don't do this.")
  else
    _ensure_beans self kwargs;;
    let matching_kwargs := matching match_ kwargs in
    found ← find_one self matching_kwargs;
    if truthy_row found
    then update self (match_ ++ ["_id"]) kwargs
    else insert self kwargs.

(** [del self._bean._tables[self._name]] *)
Definition del_tables (key : string) : coro DB unit := λ w,
  match _tables w !! key with
  | None => (Raise (KeyError key), w)
  | Some _ =>
      (Ok (), {| _pool := _pool w; _tables := base.delete key (_tables w);
                 next_oid := next_oid w; io := io w |})
  end.

Definition drop (self : Table) : coro DB unit :=
  async_with_acquire (connection_execute ("DROP TABLE " +:+ _name self +:+ ";") []);;
  del_tables (_name self).

(** In [delete], [await] applies to the whole primary
    [self._build_select_query( **kwargs).replace("SELECT *", "DELETE", 1)]:
    the call of the [async def] gives a coroutine object, [.replace] is
    called on that object, and the result would be awaited. *)
Definition delete (self : Table) (kwargs : kwargs_t) : coro DB unit :=
  async_with_acquire (
    if truthy kwargs
    then
      let called := ObjCoroutine (λ _, _build_select_query self kwargs) in
      replaced ← lift (call_replace called "SELECT *" "DELETE");
      query ← lift (await replaced);
      connection_execute query (values kwargs)
    else connection_execute ("DELETE FROM " +:+ _name self +:+ ";") []).

End with_connection.
End Table.

(** ** The registry *)

Module Databean.
Section with_db.
Context {DB : Type}.

(** [Databean.__getitem__] *)
Definition __getitem__ (key : string) : coro DB Table := λ w,
  match _tables w !! key with
  | Some t => (Ok t, w)
  | None =>
      let t := {| _name := key; oid := next_oid w |} in
      (Ok t, {| _pool := _pool w; _tables := <[key := t]> (_tables w);
                next_oid := S (next_oid w); io := io w |})
  end.

(** [Databean.__len__] *)
Definition __len__ (w : world DB) : nat := size (_tables w).

(** [Databean.__iter__]: the cached names. *)
Definition __iter__ (w : world DB) : list string := (map_to_list (_tables w)).*1.

(** The bean [_connect] returns: an empty cache over a pool. *)
Definition _connect (d : DB) : world DB :=
  {| _pool := d; _tables := ∅; next_oid := 0; io := [] |}.

End with_db.
End Databean.

(** ** The statements as the specification words them *)

Module Spec.

(** The positional placeholder [$i]. *)
Definition placeholder (i : nat) : string := "$" +:+ pretty i.

(** [$first, $(first+1), ...]: [n] placeholders in a row. *)
Fixpoint placeholders (first n : nat) : list string :=
  match n with
  | 0 => []
  | S n' => placeholder first :: placeholders (S first) n'
  end.

(** [INSERT INTO <id>(<col1>, <col2>, ...) VALUES($1, $2, ...)] *)
Definition insert_text (id : string) (cols : list string) : string :=
  "INSERT INTO " +:+ id +:+ "(" +:+ String.concat ", " cols
    +:+ ") VALUES(" +:+ String.concat ", " (placeholders 1 (length cols)) +:+ ")".

(** [ AND <ki> = $i] for each further filter key, one after the other. *)
Fixpoint and_conditions (i : nat) (ks : list string) : string :=
  match ks with
  | [] => ""
  | k :: ks' => " AND " +:+ k +:+ " = " +:+ placeholder i +:+ and_conditions (S i) ks'
  end.

(** [SELECT * FROM <id> WHERE <k1> = $1] followed by [ AND <ki> = $i]
    for each further filter key. *)
Definition select_text (id k1 : string) (ks : list string) : string :=
  "SELECT * FROM " +:+ id +:+ " WHERE " +:+ k1 +:+ " = $1" +:+ and_conditions 2 ks.

(** The same conditions with a blank between two of them. *)
Fixpoint and_conditions_spaced (i : nat) (ks : list string) : string :=
  match ks with
  | [] => ""
  | k :: ks' =>
      " AND " +:+ k +:+ " = " +:+ placeholder i
        +:+ match ks' with
            | [] => ""
            | _ :: _ => " " +:+ and_conditions_spaced (S i) ks'
            end
  end.

(** The select statement with its further conditions separated by a
    blank and closed by a semicolon when there is more than one key. *)
Definition select_text_closed (id k1 : string) (ks : list string) : string :=
  "SELECT * FROM " +:+ id +:+ " WHERE " +:+ k1 +:+ " = $1"
    +:+ match ks with
        | [] => ""
        | _ :: _ => and_conditions_spaced 2 ks +:+ ";"
        end.

(** [<k1> = $first, <k2> = $(first+1), ...] as a list of conditions. *)
Fixpoint conditions (first : nat) (ks : list string) : list string :=
  match ks with
  | [] => []
  | k :: ks' => (k +:+ " = " +:+ placeholder first) :: conditions (S first) ks'
  end.

(** [UPDATE <id> SET <k1>=$1,<k2>=$2,... WHERE <m1>=$(n+1) AND
    <m2>=$(n+2) ...] with [n] the number of keys of the record. *)
Definition update_text (id : string) (ks ms : list string) : string :=
  "UPDATE " +:+ id +:+ " SET " +:+ String.concat ", " (conditions 1 ks)
    +:+ " WHERE " +:+ String.concat " AND " (conditions (length ks + 1) ms) +:+ ";".

End Spec.

(** ** Outcomes of coroutines, for the statements below *)

(** The world after a coroutine that left the database [d] and did the
    I/O [evs]. *)
Definition did {DB} (w : world DB) (d : DB) (evs : list event) : world DB :=
  {| _pool := d; _tables := _tables w; next_oid := next_oid w; io := io w ++ evs |}.

(** The answer of a read once [UndefinedTableError] has been caught. *)
Definition recovered {A} (empty : A) (r : outcome A) : outcome A :=
  match r with
  | Raise UndefinedTableError => Ok empty
  | _ => r
  end.

(** [sub in s] on two [str]. *)
Fixpoint contains (sub s : string) : bool :=
  String.prefix sub s
  || match s with
     | EmptyString => false
     | String _ s' => contains sub s'
     end.

(** ** Scripts of calls on a bean *)

(** A call a program makes on the bean or on a table object it holds. *)
Inductive call :=
  | Get (key : string)
  | All (self : Table)
  | Find (self : Table) (kwargs : kwargs_t)
  | FindOne (self : Table) (kwargs : kwargs_t)
  | Insert (self : Table) (kwargs : kwargs_t)
  | Update (self : Table) (match_ : list string) (kwargs : kwargs_t)
  | Upsert (self : Table) (match_ : list string) (kwargs : kwargs_t)
  | Delete (self : Table) (kwargs : kwargs_t)
  | Drop (self : Table).

(** The world after the call, whether it returned or raised. *)
Definition run_call {DB} (connection : Connection DB) (c : call) (w : world DB) : world DB :=
  match c with
  | Get key => (Databean.__getitem__ key w).2
  | All self => (Table.all connection self w).2
  | Find self kwargs => (Table.find connection self kwargs w).2
  | FindOne self kwargs => (Table.find_one connection self kwargs w).2
  | Insert self kwargs => (Table.insert connection self kwargs w).2
  | Update self match_ kwargs => (Table.update connection self match_ kwargs w).2
  | Upsert self match_ kwargs => (Table.upsert connection self match_ kwargs w).2
  | Delete self kwargs => (Table.delete connection self kwargs w).2
  | Drop self => (Table.drop connection self w).2
  end.

Fixpoint run_script {DB} (connection : Connection DB) (script : list call)
    (w : world DB) : world DB :=
  match script with
  | [] => w
  | c :: script' => run_script connection script' (run_call connection c w)
  end.

(** The table objects the bean handed to the program during the script. *)
Fixpoint handles_of {DB} (connection : Connection DB) (script : list call)
    (w : world DB) : list Table :=
  match script with
  | [] => []
  | c :: script' =>
      match c with
      | Get key =>
          match (Databean.__getitem__ key w).1 with
          | Ok t => [t]
          | Raise _ => []
          end
      | _ => []
      end ++ handles_of connection script' (run_call connection c w)
  end.

(** Whether the [DROP TABLE] statement of [drop] goes through. *)
Definition drop_statement_ok {DB} (connection : Connection DB) (self : Table)
    (w : world DB) : bool :=
  match execute connection ("DROP TABLE " +:+ _name self +:+ ";") [] (_pool w) with
  | (Ok _, _) => true
  | (Raise _, _) => false
  end.

(** The names obtained through [__getitem__] and not dropped with success
    since, starting from [names]. *)
Fixpoint obtained_not_dropped {DB} (connection : Connection DB) (script : list call)
    (w : world DB) (names : gset string) : gset string :=
  match script with
  | [] => names
  | c :: script' =>
      obtained_not_dropped connection script' (run_call connection c w)
        match c with
        | Get key => {[key]} ∪ names
        | Drop self =>
            if drop_statement_ok connection self w then names ∖ {[_name self]} else names
        | _ => names
        end
  end.

(** A coroutine that leaves the handle cache and the object stamps alone. *)
Definition keeps_cache {DB A} (m : coro DB A) : Prop :=
  ∀ w, _tables (m w).2 = _tables w ∧ next_oid (m w).2 = next_oid w.

(** The cache files every table object under its own name, and every
    object in it was made before the next stamp. *)
Definition cache_ok {DB} (w : world DB) : Prop :=
  ∀ key t, _tables w !! key = Some t → _name t = key ∧ oid t < next_oid w.

(** ** The words of a statement *)

(** How the server reads the text of a statement: blanks and line
    breaks separate words; a parenthesis, a comma and a semicolon are
    words of their own. *)
Module Postgres.

Definition is_punct (c : ascii) : bool :=
  match c with
  | "(" | ")" | "," | ";" => true
  | _ => false
  end%char.

(** A character that ends the word before it. *)
Definition is_delimiter (c : ascii) : bool := Ascii.is_space c || is_punct c.

(** The word read so far is kept in reverse. *)
Definition flush (cur : string) : list string :=
  match cur with
  | EmptyString => []
  | String _ _ => [String.rev cur]
  end.

Fixpoint lex_go (cur : string) (s : string) : list string :=
  match s with
  | EmptyString => flush cur
  | String c s' =>
      if Ascii.is_space c then flush cur ++ lex_go EmptyString s'
      else if is_punct c then flush cur ++ String c EmptyString :: lex_go EmptyString s'
      else lex_go (String c cur) s'
  end.

(** Blanks separate words; a parenthesis, a comma and a semicolon are
    words of their own. *)
Definition lex (s : string) : list string := lex_go EmptyString s.

Fixpoint no_delimiter (s : string) : bool :=
  match s with
  | EmptyString => true
  | String c s' => negb (is_delimiter c) && no_delimiter s'
  end.

(** A word: not empty, and without a blank or a punctuation mark. *)
Definition is_word (s : string) : bool :=
  match s with
  | EmptyString => false
  | String _ _ => no_delimiter s
  end.

(** The text is over, or goes on with a blank or a punctuation mark. *)
Definition starts_delimiter (s : string) : bool :=
  match s with
  | EmptyString => true
  | String c _ => is_delimiter c
  end.

Fixpoint all_blank (s : string) : bool :=
  match s with
  | EmptyString => true
  | String c s' => Ascii.is_space c && all_blank s'
  end.

(** Groups of words with a comma between two groups. *)
Fixpoint comma_separated (groups : list (list string)) : list string :=
  match groups with
  | [] => []
  | [g] => g
  | g :: groups' => g ++ "," :: comma_separated groups'
  end.

End Postgres.

(** ** The words of the two statements of the schema reconciler *)

(** [CREATE TABLE <id> ( _id serial PRIMARY KEY , <col> <mappedType> ,
    ... ) ;] *)
Definition create_table_words (id : string) (record : kwargs_t) : list string :=
  ["CREATE"; "TABLE"; id; "("]
    ++ Postgres.comma_separated
         (["_id"; "serial"; "PRIMARY"; "KEY"]
            :: ((λ kv, [kv.1; mapType kv.2]) <$> record))
    ++ [")"; ";"].

(** [ALTER TABLE <id> ADD COLUMN IF NOT EXISTS <col> <mappedType> , ... ;] *)
Definition alter_table_words (id : string) (record : kwargs_t) : list string :=
  ["ALTER"; "TABLE"; id]
    ++ Postgres.comma_separated
         ((λ kv, ["ADD"; "COLUMN"; "IF"; "NOT"; "EXISTS"; kv.1; mapType kv.2]) <$> record)
    ++ [";"].

(** ** Small collaborators *)

(** A server without any table: every statement is answered with the
    undefined-table error. *)
Definition no_tables : Connection unit :=
  {| execute := λ _ _ d, (Raise UndefinedTableError, d);
     fetch := λ _ _ d, (Raise UndefinedTableError, d);
     fetchrow := λ _ _ d, (Raise UndefinedTableError, d) |}.

(** A server where the table [beans] alone is missing: a statement
    whose fourth word is [beans] is answered with the undefined-table
    error, any other statement is accepted, and any other read is
    answered with the one row [{_id: 7}]. *)
Definition beans_missing : Connection unit :=
  let missing := λ query : string,
    bool_decide (Postgres.lex query !! 3 = Some "beans") in
  {| execute := λ query _ d,
       (if missing query then Raise UndefinedTableError else Ok (), d);
     fetch := λ query _ d,
       (if missing query then Raise UndefinedTableError
        else Ok [[("_id", VInt 7)]], d);
     fetchrow := λ query _ d,
       (if missing query then Raise UndefinedTableError
        else Ok (Some [("_id", VInt 7)]), d) |}.

(** A server that accepts every statement, counts the statements it
    executed, and answers every read with the one row [{_id: 7}]. *)
Definition one_row : Connection nat :=
  {| execute := λ _ _ d, (Ok (), S d);
     fetch := λ _ _ d, (Ok [[("_id", VInt 7)]], d);
     fetchrow := λ _ _ d, (Ok (Some [("_id", VInt 7)]), d) |}.

(** ** The pass-through queries of [Databean] *)

Module Queries.
Section with_connection.
Context {DB : Type} (connection : Connection DB).

(** [Databean.execute_query], called with positional arguments for the
    statement; the result of [connection.execute] is dropped. *)
Definition execute_query (query_string : string) (args : list pyvalue) : coro DB unit :=
  async_with_acquire (Table.connection_execute connection query_string args).

(** [Databean.fetch_query], called with positional arguments for the
    statement; [res] is returned once the connection is back in the pool. *)
Definition fetch_query (query_string : string) (args : list pyvalue) : coro DB (list Row) :=
  res ← async_with_acquire (Table.connection_fetch connection query_string args);
  mret res.

End with_connection.
End Queries.

(** ** Connections held along a log *)

(** The number of connections held after the events [evs], starting
    with [held] of them, in a pool of [limit] connections: nothing when
    the log acquires beyond the limit, releases a connection that is not
    held, or sends a statement while no connection is held. *)
Fixpoint held_after (limit held : nat) (evs : list event) : option nat :=
  match evs with
  | [] => Some held
  | Acquire :: evs' =>
      if decide (held < limit) then held_after limit (S held) evs' else None
  | Release :: evs' =>
      match held with
      | 0 => None
      | S held' => held_after limit held' evs'
      end
  | _ :: evs' =>
      match held with
      | 0 => None
      | S _ => held_after limit held evs'
      end
  end.

(** A coroutine that only adds to the log, and whose events, played
    with at least [need] connections held and room for [peak] more, end
    with as many connections held as at the start. *)
Definition scoped {DB A} (need peak : nat) (m : coro DB A) : Prop :=
  ∀ w, ∃ evs,
    io (m w).2 = io w ++ evs
    ∧ ∀ limit held, need ≤ held → held + peak ≤ limit →
        held_after limit held evs = Some held.

(** ** A collaborator out of reach *)


(** * Properties *)

(** ** The builders on small inputs *)

Example insert_abc :
  Builder._build_insert_query "t" [("a", VInt 1); ("b", VInt 2); ("c", VInt 3)]
  = "INSERT INTO t(a, b, c) VALUES($1, $2, $3)".
Proof. vm_compute. reflexivity. Qed.

Example select_a :
  Builder._build_select_query "t" [("a", VInt 1)]
  = Ok "SELECT * FROM t WHERE a = $1".
Proof. vm_compute. reflexivity. Qed.

Example select_abc :
  Builder._build_select_query "t" [("a", VInt 1); ("b", VInt 2); ("c", VInt 3)]
  = Ok "SELECT * FROM t WHERE a = $1 AND b = $2  AND c = $3;".
Proof. vm_compute. reflexivity. Qed.

Example update_ab_on_a :
  Builder._build_update_query "t" ["a"] [("a", VInt 1); ("b", VStr "y")]
  = ("UPDATE t SET a = $1, b = $2 WHERE a = $3;", [VInt 1; VStr "y"; VInt 1]).
Proof. vm_compute. reflexivity. Qed.

Example update_abc_on_a :
  Builder._build_update_query "t" ["a"] [("a", VInt 1); ("b", VInt 2); ("c", VInt 3)]
  = ("UPDATE t SET a = $1, b = $2, c = $3 WHERE a = $3;",
     [VInt 1; VInt 2; VInt 3; VInt 1]).
Proof. vm_compute. reflexivity. Qed.

(** ** The operations on the two small collaborators *)

(** An [upsert] that finds a row: schema, lookup, then [update] (which
    ensures the schema again) with [_id] added to the match sequence. *)
Example upsert_on_one_row :
  let self := {| _name := "beans"; oid := 0 |} in
  let record := [("a", VInt 1); ("b", VStr "y")] in
  let lookup := Fetchrow "SELECT * FROM pg_tables WHERE tablename = $1" [VStr "beans"] in
  let alter := Execute (Table.alter_query self record) [] in
  Table.upsert one_row self ["a"] record (Databean._connect 0)
  = (Ok (),
     {| _pool := 3; _tables := ∅; next_oid := 0;
        io := [Acquire; lookup; alter; Release;
               Acquire; Fetchrow "SELECT * FROM beans WHERE a = $1" [VInt 1]; Release;
               Acquire; lookup; alter; Release;
               Acquire;
               Execute "UPDATE beans SET a = $1, b = $2 WHERE a = $3;"
                 [VInt 1; VStr "y"; VInt 1];
               Release] |}).
Proof. vm_compute. reflexivity. Qed.

(** The statement of the first write to a new table, word by word. *)
Example create_query_ab :
  let self := {| _name := "beans"; oid := 0 |} in
  let record := [("a", VInt 1); ("b", VStr "y")] in
  Postgres.lex (Table.create_query self record)
  = ["CREATE"; "TABLE"; "beans"; "("; "_id"; "serial"; "PRIMARY"; "KEY"; ",";
     "a"; "bigint"; ","; "b"; "text"; ")"; ";"].
Proof. vm_compute; reflexivity. Qed.

(** ** Strings and lists *)

Lemma append_nil_l (s : string) : "" +:+ s = s.
Proof. reflexivity. Qed.

Lemma append_cons (a : ascii) (s t : string) : String a s +:+ t = String a (s +:+ t).
Proof. reflexivity. Qed.

Lemma append_nil_r (s : string) : s +:+ "" = s.
Proof. induction s as [|a s IH]; [done|]. by rewrite append_cons, IH. Qed.

Lemma append_assoc (s t u : string) : (s +:+ t) +:+ u = s +:+ (t +:+ u).
Proof.
  induction s as [|a s IH]; [done|].
  by rewrite !append_cons, IH.
Qed.

Lemma keys_length (kwargs : kwargs_t) : length (keys kwargs) = length kwargs.
Proof. unfold keys. by rewrite length_fmap. Qed.

Lemma values_length (kwargs : kwargs_t) : length (values kwargs) = length kwargs.
Proof. unfold values. by rewrite length_fmap. Qed.

Lemma placeholders_seq (s n : nat) :
  (λ i, "$" +:+ pretty (i + 1)) <$> seq s n = Spec.placeholders (s + 1) n.
Proof.
  revert s. induction n as [|n IH]; intros s; [done|].
  cbn [seq fmap list_fmap Spec.placeholders]. f_equal.
  change (S (s + 1)) with (S s + 1). apply IH.
Qed.

Lemma placeholders_lookup (first n i : nat) :
  Spec.placeholders first n !! i
  = if decide (i < n) then Some (Spec.placeholder (first + i)) else None.
Proof.
  revert first i. induction n as [|n IH]; intros first i.
  - by destruct i.
  - destruct i as [|i]; cbn [Spec.placeholders].
    + rewrite Nat.add_0_r. by case_decide; [|lia].
    + change ((_ :: ?l) !! S i) with (l !! i). rewrite IH.
      replace (S first + i) with (first + S i) by lia.
      repeat case_decide; done || lia.
Qed.

Lemma conditions_enumerate (first : nat) (ks : list string) :
  (λ ik : nat * string, ik.2 +:+ " = $" +:+ pretty (ik.1 + 1)) <$> enumerate first ks
  = Spec.conditions (first + 1) ks.
Proof.
  unfold enumerate. revert first. induction ks as [|k ks IH]; intros first; [done|].
  rewrite imap_cons. cbn [fmap list_fmap Spec.conditions]. f_equal.
  - cbn. by rewrite Nat.add_0_r.
  - change (S (first + 1)) with (S first + 1).
    rewrite <- (IH (S first)). f_equal. apply imap_ext. intros i x _. cbn.
    f_equal. lia.
Qed.

(** ** Running coroutines *)

Lemma bind_run {DB A B} (m : coro DB A) (f : A → coro DB B) (w : world DB) :
  (m ≫= f) w = match m w with
               | (Ok a, w') => f a w'
               | (Raise e, w') => (Raise e, w')
               end.
Proof. reflexivity. Qed.

Ltac finish_run :=
  cbn; unfold did; cbn; rewrite <- ?app_assoc; reflexivity.

Ltac run_coro :=
  unfold async_with_acquire, except_UndefinedTableError, lift, raise,
    Table.connection_execute, Table.connection_fetch, Table.connection_fetchrow,
    log, mbind, coro_bind, mret, coro_ret; cbn [_pool _tables next_oid io].

(** ** The type mapper *)

(** Every class of the table gets the tag the table gives it. *)
Lemma VALID_TYPE_MAPPING_table (cls : pytype) (tag : string) :
  (cls, tag) ∈ TYPE_MAPPING → VALID_TYPE_MAPPING cls = tag.
Proof.
  unfold TYPE_MAPPING. rewrite !elem_of_cons, elem_of_nil.
  intros H. repeat (destruct H as [H|H]; [by simplify_eq|]). done.
Qed.

(** A class outside the table gets the generic textual tag. *)
Lemma VALID_TYPE_MAPPING_fallback (cls : pytype) :
  cls ∉ TYPE_MAPPING.*1 → VALID_TYPE_MAPPING cls = "text".
Proof.
  intros H. unfold VALID_TYPE_MAPPING.
  destruct (dict_get TYPE_MAPPING cls) as [tag|] eqn:E; [|done].
  exfalso. apply H. clear H. revert E. generalize TYPE_MAPPING.
  induction l as [|[k t] l IH]; [done|]. cbn. case_decide; intros E.
  - subst. apply list_elem_of_here.
  - apply list_elem_of_further. by apply IH.
Qed.

(** The tags of the supported shapes, as the table has them. *)
Lemma mapType_supported :
  (∀ s, mapType (VStr s) = "text")
  ∧ (∀ b, mapType (VBool b) = "bool")
  ∧ (∀ b, mapType (VBytes b) = "bytea")
  ∧ (∀ z, mapType (VInt z) = "bigint")
  ∧ (∀ r, mapType (VFloat r) = "float8")
  ∧ (∀ r, mapType (VInstance Decimal r) = "numeric")
  ∧ (∀ l, mapType (VList l) = "anyarray")
  ∧ (∀ l, mapType (VTuple l) = "record")
  ∧ (∀ r, mapType (VInstance UUID r) = "uuid")
  ∧ (∀ r, mapType (VInstance date r) = "date")
  ∧ (∀ r, mapType (VInstance time r) = "timestamp")
  ∧ (∀ r, mapType (VInstance datetime r) = "timestamptz")
  ∧ (∀ cls r, cls ∈ [IPv4Network; IPv6Network; IPv4Interface; IPv6Interface;
                     IPv4Address; IPv6Address] →
              mapType (VInstance cls r) = "inet").
Proof.
  repeat split; try done.
  intros cls r. rewrite !elem_of_cons, elem_of_nil.
  intros H. repeat (destruct H as [->|H]; [done|]). done.
Qed.

(** A value that is a mapping gets the generic textual tag: its class is
    [dict] or [OrderedDict], and neither is a key of the table. *)
Lemma mapType_of_mapping (value : pyvalue) :
  is_mapping value = true → mapType value = "text".
Proof. by destruct value. Qed.

(** C5, at a value that is a mapping: the class of a [dict] (or of an
    [OrderedDict]) is not a key of the table, whose mapping entry is keyed
    by the abstract class [Mapping]; the lookup by [type(value)] falls
    through to the default and the tag is the generic textual one, not
    the record tag of the [Mapping] entry. *)
Theorem mapType_of_dict_is_text :
  let value := VDict [(VStr "k", VInt 1)] in
  let ordered := VOrderedDict [(VStr "k", VInt 1)] in
  is_mapping value = true ∧ is_mapping ordered = true
  ∧ dict_get TYPE_MAPPING Mapping = Some "record"
  ∧ type value = py_dict ∧ type ordered = OrderedDict
  ∧ mapType value = "text" ∧ mapType ordered = "text".
Proof. repeat split. Qed.

(** ** The insert builder *)

Lemma _build_insert_query_text (_name : string) (kwargs : kwargs_t) :
  Builder._build_insert_query _name kwargs = Spec.insert_text _name (keys kwargs).
Proof.
  unfold Builder._build_insert_query, Spec.insert_text, range.
  rewrite placeholders_seq, values_length, keys_length.
  rewrite !append_assoc. reflexivity.
Qed.

(** C7: for a record with at least one key the insert builder gives
    [INSERT INTO <id>(<col1>, <col2>, ...) VALUES($1, $2, ...)] with one
    placeholder per key; key [i], placeholder [$(i+1)] and value [i] sit
    at the same position; and [insert], once the schema is ensured,
    executes that text with exactly the values of the record in key
    order. *)
Theorem insert_placeholders_follow_keys {DB} (connection : Connection DB)
    (self : Table) (k : string) (v : pyvalue) (rest : kwargs_t) (w : world DB) :
  let kwargs := (k, v) :: rest in
  let text := Spec.insert_text (_name self) (keys kwargs) in
  Table._build_insert_query self kwargs = text
  ∧ length (Spec.placeholders 1 (length (keys kwargs))) = length kwargs
  ∧ (∀ i, keys kwargs !! i = fst <$> kwargs !! i
          ∧ Spec.placeholders 1 (length (keys kwargs)) !! i
            = (λ _, Spec.placeholder (S i)) <$> kwargs !! i
          ∧ values kwargs !! i = snd <$> kwargs !! i)
  ∧ Table.insert connection self kwargs w
    = match Table._ensure_beans connection self kwargs w with
      | (Raise e, w1) => (Raise e, w1)
      | (Ok _, w1) =>
          let '(r, d) := execute connection text (values kwargs) (_pool w1) in
          (r, {| _pool := d; _tables := _tables w1; next_oid := next_oid w1;
                 io := io w1 ++ [Acquire; Execute text (values kwargs); Release] |})
      end.
Proof.
  intros kwargs text. split_and!.
  - apply _build_insert_query_text.
  - rewrite keys_length. generalize (length kwargs) 1.
    induction n as [|n IH]; intros f; cbn; [done|]. by rewrite IH.
  - intros i. split_and!.
    + unfold keys. by rewrite list_lookup_fmap.
    + rewrite placeholders_lookup, keys_length.
      destruct (kwargs !! i) as [kv|] eqn:E; cbn [fmap option_fmap option_map].
      * pose proof (lookup_lt_Some _ _ _ E). case_decide; [done|lia].
      * pose proof (proj1 (lookup_ge_None _ _) E). case_decide; [lia|done].
    + unfold values. by rewrite list_lookup_fmap.
  - unfold Table.insert. cbn [truthy kwargs negb].
    change (?m ;; ?k) with (m ≫= λ _, k). rewrite bind_run.
    destruct (Table._ensure_beans connection self kwargs w) as [[[]|e] w1]; [|done].
    unfold Table._build_insert_query. rewrite _build_insert_query_text.
    fold kwargs text. run_coro.
    destruct (execute connection text (values kwargs) (_pool w1)) as [r d].
    cbn. by rewrite <- !app_assoc.
Qed.

(** ** The update builder *)

(** What the update builder computes for any input: the conditions after
    [WHERE] are numbered from the number of matched keys plus two, and
    are joined by a comma. *)
Lemma _build_update_query_shape (_name : string) (match_ : list string) (kwargs : kwargs_t) :
  Builder._build_update_query _name match_ kwargs
  = let ms := keys (matching match_ kwargs) in
    ("UPDATE " +:+ _name +:+ " SET " +:+ String.concat ", " (Spec.conditions 1 (keys kwargs))
       +:+ " WHERE " +:+ String.concat ", " (Spec.conditions (length ms + 2) ms) +:+ ";",
     values kwargs ++ values (matching match_ kwargs)).
Proof.
  unfold Builder._build_update_query. cbv zeta.
  rewrite !conditions_enumerate.
  by replace (length (keys (matching match_ kwargs)) + 1 + 1)
    with (length (keys (matching match_ kwargs)) + 2) by lia.
Qed.

(** C1, at the record [{a: 1, b: 2, c: 3, d: 4}] matched on [a] and [b]:
    the statement built has its two [WHERE] conditions joined by a comma
    and numbered [$4] and [$5], where the parameter list holds the
    matched values at positions 5 and 6; the statement the claim
    describes joins them with [AND] and numbers them [$5] and [$6]. *)
Theorem update_where_clause_at_abcd :
  let kwargs := [("a", VInt 1); ("b", VInt 2); ("c", VInt 3); ("d", VInt 4)] in
  let match_ := ["a"; "b"] in
  Builder._build_update_query "t" match_ kwargs
  = ("UPDATE t SET a = $1, b = $2, c = $3, d = $4 WHERE a = $4, b = $5;",
     [VInt 1; VInt 2; VInt 3; VInt 4; VInt 1; VInt 2])
  ∧ Spec.update_text "t" (keys kwargs) (keys (matching match_ kwargs))
    = "UPDATE t SET a = $1, b = $2, c = $3, d = $4 WHERE a = $5 AND b = $6;"
  ∧ (Builder._build_update_query "t" match_ kwargs).1
    ≠ Spec.update_text "t" (keys kwargs) (keys (matching match_ kwargs))
  ∧ (Builder._build_update_query "t" match_ kwargs).2 !! 3 = Some (VInt 4)
  ∧ (Builder._build_update_query "t" match_ kwargs).2 !! 4 = Some (VInt 1).
Proof. vm_compute. split_and!; done. Qed.

(** ** The select builder and the read operations *)

Lemma concat_cons_cons (sep x y : string) (l : list string) :
  String.concat sep (x :: y :: l) = x +:+ sep +:+ String.concat sep (y :: l).
Proof. reflexivity. Qed.

Lemma and_conditions_spaced_enumerate (first : nat) (ks : list string) :
  String.concat " "
    ((λ ik : nat * string, " AND " +:+ ik.2 +:+ " = $" +:+ pretty ik.1)
       <$> enumerate first ks)
  = Spec.and_conditions_spaced first ks.
Proof.
  unfold enumerate. revert first. induction ks as [|k ks IH]; intros first; [done|].
  rewrite imap_cons. cbn [fmap list_fmap].
  assert (imap ((λ i x, (first + i, x)) ∘ S) ks = imap (λ i x, (S first + i, x)) ks) as ->.
  { apply imap_ext. intros i x _. cbn. f_equal. lia. }
  specialize (IH (S first)). cbn [fst snd]. rewrite Nat.add_0_r.
  destruct ks as [|k' ks].
  - cbn. unfold Spec.placeholder. by rewrite !append_assoc, append_nil_r.
  - remember ((λ ik : nat * string, " AND " +:+ ik.2 +:+ " = $" +:+ pretty ik.1)
                <$> imap (λ i x, (S first + i, x)) (k' :: ks)) as L eqn:HL.
    destruct L as [|y L]; [by rewrite imap_cons in HL|].
    rewrite concat_cons_cons, IH. cbn [Spec.and_conditions_spaced].
    unfold Spec.placeholder. by rewrite !append_assoc.
Qed.

Lemma _build_select_query_text (_name k : string) (v : pyvalue) (rest : kwargs_t) :
  Builder._build_select_query _name ((k, v) :: rest)
  = Ok (Spec.select_text_closed _name k (keys rest)).
Proof.
  unfold Builder._build_select_query, Spec.select_text_closed.
  cbn [keys fmap list_fmap fst]. fold (keys rest).
  destruct rest as [|kv rest].
  - cbn. by rewrite !append_assoc, append_nil_r.
  - case_decide as Hlen; [done|]. cbv zeta.
    rewrite and_conditions_spaced_enumerate.
    cbn [keys fmap list_fmap]. by rewrite !append_assoc.
Qed.

Lemma all_run {DB} (connection : Connection DB) (self : Table) (w : world DB) :
  Table.all connection self w
  = let query := "SELECT * FROM " +:+ _name self +:+ ";" in
    let '(r, d) := fetch connection query [] (_pool w) in
    (recovered [] r, did w d [Acquire; Fetch query []; Release]).
Proof.
  unfold Table.all. run_coro. cbv zeta.
  destruct (fetch _ _ _ _) as [[rows|e] d]; [|destruct e]; finish_run.
Qed.

Lemma find_run {DB} (connection : Connection DB) (self : Table)
    (k : string) (v : pyvalue) (rest : kwargs_t) (w : world DB) :
  Table.find connection self ((k, v) :: rest) w
  = let query := Spec.select_text_closed (_name self) k (keys rest) in
    let '(r, d) := fetch connection query (v :: values rest) (_pool w) in
    (recovered [] r, did w d [Acquire; Fetch query (v :: values rest); Release]).
Proof.
  unfold Table.find, Table._build_select_query. rewrite _build_select_query_text.
  run_coro. cbv zeta. cbn [truthy values fmap list_fmap snd]. fold (values rest).
  destruct (fetch _ _ _ _) as [[rows|e] d]; [|destruct e]; finish_run.
Qed.

Lemma find_run_nil {DB} (connection : Connection DB) (self : Table) (w : world DB) :
  Table.find connection self [] w
  = let query := "SELECT * FROM " +:+ _name self +:+ ";" in
    let '(r, d) := fetch connection query [] (_pool w) in
    (recovered [] r,
     did w d [Acquire; Acquire; Fetch query []; Release; Release]).
Proof.
  unfold Table.find. cbn [truthy]. unfold async_with_acquire at 1.
  unfold except_UndefinedTableError. rewrite all_run. cbv zeta.
  unfold log at 1. cbn [_pool].
  destruct (fetch connection _ [] _) as [[rows|e] d];
    [|destruct e]; unfold log; finish_run.
Qed.

Lemma find_one_run {DB} (connection : Connection DB) (self : Table)
    (k : string) (v : pyvalue) (rest : kwargs_t) (w : world DB) :
  Table.find_one connection self ((k, v) :: rest) w
  = let query := Spec.select_text_closed (_name self) k (keys rest) in
    let '(r, d) := fetchrow connection query (v :: values rest) (_pool w) in
    (recovered None r, did w d [Acquire; Fetchrow query (v :: values rest); Release]).
Proof.
  unfold Table.find_one, Table._build_select_query. rewrite _build_select_query_text.
  run_coro. cbv zeta. cbn [truthy values fmap list_fmap snd]. fold (values rest).
  destruct (fetchrow _ _ _ _) as [[rows|e] d]; [|destruct e]; finish_run.
Qed.

Lemma find_one_run_nil {DB} (connection : Connection DB) (self : Table) (w : world DB) :
  Table.find_one connection self [] w
  = let query := "SELECT * FROM " +:+ _name self +:+ " LIMIT 1;" in
    let '(r, d) := fetchrow connection query [] (_pool w) in
    (recovered None r, did w d [Acquire; Fetchrow query []; Release]).
Proof.
  unfold Table.find_one. run_coro. cbv zeta. cbn [truthy].
  destruct (fetchrow _ _ _ _) as [[rows|e] d]; [|destruct e]; finish_run.
Qed.

(** C4: when the collaborator answers the statement a read sends with
    the undefined-table error, the read returns its empty result and
    does not raise: [all] the empty list for [SELECT * FROM <id>;],
    [find] the empty list and [find_one] [None] for the select built
    from the filter with the values of the filter, and without a filter
    for [SELECT * FROM <id>;] and [SELECT * FROM <id> LIMIT 1;]. Nothing
    is asked of the answers to any other statement. *)
Theorem reads_of_undefined_table_are_empty {DB} (connection : Connection DB)
    (self : Table) (kwargs : kwargs_t) (w : world DB) :
  let unconditional := "SELECT * FROM " +:+ _name self +:+ ";" in
  let unconditional_one := "SELECT * FROM " +:+ _name self +:+ " LIMIT 1;" in
  let filtered := λ otherwise : string,
    match kwargs with
    | [] => otherwise
    | (k, v) :: rest => Spec.select_text_closed (_name self) k (keys rest)
    end in
  ((fetch connection unconditional [] (_pool w)).1 = Raise UndefinedTableError →
   (Table.all connection self w).1 = Ok [])
  ∧ ((fetch connection (filtered unconditional) (values kwargs) (_pool w)).1
       = Raise UndefinedTableError →
     (Table.find connection self kwargs w).1 = Ok [])
  ∧ ((fetchrow connection (filtered unconditional_one) (values kwargs) (_pool w)).1
       = Raise UndefinedTableError →
     (Table.find_one connection self kwargs w).1 = Ok None).
Proof.
  intros unconditional unconditional_one filtered. subst filtered. split_and!.
  - rewrite all_run. cbv zeta. fold unconditional.
    destruct (fetch _ _ _ _) as [r d]. cbn. by intros ->.
  - destruct kwargs as [|[k v] rest].
    + rewrite find_run_nil. cbv zeta. fold unconditional.
      cbn [values fmap list_fmap].
      destruct (fetch _ _ _ _) as [r d]. cbn. by intros ->.
    + rewrite find_run. cbv zeta.
      change (values ((k, v) :: rest)) with (v :: values rest).
      destruct (fetch _ _ _ _) as [r d]. cbn. by intros ->.
  - destruct kwargs as [|[k v] rest].
    + rewrite find_one_run_nil. cbv zeta. fold unconditional_one.
      cbn [values fmap list_fmap].
      destruct (fetchrow _ _ _ _) as [r d]. cbn. by intros ->.
    + rewrite find_one_run. cbv zeta.
      change (values ((k, v) :: rest)) with (v :: values rest).
      destruct (fetchrow _ _ _ _) as [r d]. cbn. by intros ->.
Qed.

(** The three reads of [beans] on the server where that table alone is
    missing, and a read of another table there. *)
Lemma reads_of_undefined_table_are_empty_witness :
  let self := {| _name := "beans"; oid := 0 |} in
  let other := {| _name := "peas"; oid := 1 |} in
  let w := Databean._connect () in
  (Table.all beans_missing self w).1 = Ok []
  ∧ (Table.find beans_missing self [("a", VInt 1); ("b", VInt 2)] w).1 = Ok []
  ∧ (Table.find_one beans_missing self [("a", VInt 1); ("b", VInt 2)] w).1 = Ok None
  ∧ (Table.all beans_missing other w).1 = Ok [[("_id", VInt 7)]].
Proof.
  intros self other w.
  destruct (reads_of_undefined_table_are_empty beans_missing self
              [("a", VInt 1); ("b", VInt 2)] w) as (Hall & Hfind & Hone).
  split_and!.
  - apply Hall. vm_compute. reflexivity.
  - apply Hfind. vm_compute. reflexivity.
  - apply Hone. vm_compute. reflexivity.
  - vm_compute. reflexivity.
Defined.

(** ** Writes *)

(** C3, at [update] called with an empty record: as [insert] and
    [upsert], it raises [BeansError] and leaves the world as it was, no
    connection acquired, no statement executed, no schema ensured. The
    messages of [insert] and of [upsert] open with the name of their
    operation, [Bad insert call] and [Bad upsert call]; the message of
    [update] opens with [Bad upsert call] as well, and none of the three
    messages has [Bad update call]. Further on each message says which
    operation was attempted on nothing. *)
Theorem update_with_empty_record_names_upsert {DB} (connection : Connection DB)
    (self : Table) (match_ : list string) (w : world DB) :
  let insert_msg := "Bad insert call - you attempted to insert nothing. Don't do this." in
  let update_msg := "Bad upsert call - you attempted to update nothing. Don't do this." in
  let upsert_msg := "Bad upsert call - you attempted to upsert nothing. Don't do this." in
  let heading := λ operation, "Bad " +:+ operation +:+ " call" in
  let attempted := λ operation, "attempted to " +:+ operation +:+ " nothing" in
  Table.insert connection self [] w = (Raise (BeansError insert_msg), w)
  ∧ Table.update connection self match_ [] w = (Raise (BeansError update_msg), w)
  ∧ Table.upsert connection self match_ [] w = (Raise (BeansError upsert_msg), w)
  ∧ (contains (heading "insert") <$> [insert_msg; update_msg; upsert_msg])
    = [true; false; false]
  ∧ (contains (heading "update") <$> [insert_msg; update_msg; upsert_msg])
    = [false; false; false]
  ∧ (contains (heading "upsert") <$> [insert_msg; update_msg; upsert_msg])
    = [false; true; true]
  ∧ (contains (attempted "insert") <$> [insert_msg; update_msg; upsert_msg])
    = [true; false; false]
  ∧ (contains (attempted "update") <$> [insert_msg; update_msg; upsert_msg])
    = [false; true; false]
  ∧ (contains (attempted "upsert") <$> [insert_msg; update_msg; upsert_msg])
    = [false; false; true].
Proof. cbv zeta. split_and!; done. Qed.

(** C2, at every filter with at least one key: [delete] raises
    [AttributeError] from the call of [.replace] on the coroutine object,
    having acquired and released a connection and executed nothing; the
    filtered [DELETE] is never sent. Without a filter it executes
    [DELETE FROM <id>;]. *)
Theorem delete_with_filter_raises {DB} (connection : Connection DB) (self : Table)
    (k : string) (v : pyvalue) (rest : kwargs_t) (w : world DB) :
  Table.delete connection self ((k, v) :: rest) w
  = (Raise (AttributeError "'coroutine' object has no attribute 'replace'"),
     did w (_pool w) [Acquire; Release])
  ∧ Table.delete connection self [] w
    = (let query := "DELETE FROM " +:+ _name self +:+ ";" in
       let '(r, d) := execute connection query [] (_pool w) in
       (r, did w d [Acquire; Execute query []; Release])).
Proof.
  split.
  - unfold Table.delete. run_coro. finish_run.
  - unfold Table.delete. run_coro. cbv zeta. cbn [truthy].
    destruct (execute _ _ _ _) as [r d]. finish_run.
Qed.

Lemma matching_keys (match_ : list string) (kwargs : kwargs_t) :
  keys (matching match_ kwargs) = filter (λ key, key ∈ match_) (keys kwargs).
Proof.
  unfold keys, matching. induction kwargs as [|[k v] kwargs IH]; [done|].
  cbn. case_decide; cbn; [f_equal|]; exact IH.
Qed.

(** ** The handle cache *)

Lemma keeps_cache_ret {DB A} (a : A) : keeps_cache (mret a : coro DB A).
Proof. done. Qed.

Lemma keeps_cache_raise {DB A} (e : exn) : keeps_cache (raise e : coro DB A).
Proof. done. Qed.

Lemma keeps_cache_lift {DB A} (r : outcome A) : keeps_cache (lift r : coro DB A).
Proof. done. Qed.

Lemma keeps_cache_bind {DB A B} (m : coro DB A) (f : A → coro DB B) :
  keeps_cache m → (∀ a, keeps_cache (f a)) → keeps_cache (m ≫= f).
Proof.
  intros Hm Hf w. rewrite bind_run. specialize (Hm w).
  destruct (m w) as [[a|e] w']; cbn in *; [|done].
  destruct (Hf a w') as [-> ->]. done.
Qed.

Lemma keeps_cache_acquire {DB A} (body : coro DB A) :
  keeps_cache body → keeps_cache (async_with_acquire body).
Proof.
  intros Hb w. unfold async_with_acquire. specialize (Hb (log Acquire w)).
  destruct (body (log Acquire w)) as [r w']. done.
Qed.

Lemma keeps_cache_except {DB A} (body handler : coro DB A) :
  keeps_cache body → keeps_cache handler →
  keeps_cache (except_UndefinedTableError body handler).
Proof.
  intros Hb Hh w. unfold except_UndefinedTableError. specialize (Hb w).
  destruct (body w) as [[a|e] w']; [done|].
  destruct e; try done. cbn in *. destruct (Hh w') as [-> ->]. done.
Qed.

Lemma keeps_cache_execute {DB} (connection : Connection DB) q args :
  keeps_cache (Table.connection_execute connection q args).
Proof. intros w. unfold Table.connection_execute. by destruct (execute _ _ _ _). Qed.

Lemma keeps_cache_fetch {DB} (connection : Connection DB) q args :
  keeps_cache (Table.connection_fetch connection q args).
Proof. intros w. unfold Table.connection_fetch. by destruct (fetch _ _ _ _). Qed.

Lemma keeps_cache_fetchrow {DB} (connection : Connection DB) q args :
  keeps_cache (Table.connection_fetchrow connection q args).
Proof. intros w. unfold Table.connection_fetchrow. by destruct (fetchrow _ _ _ _). Qed.

Create HintDb cache discriminated.
#[export] Hint Resolve keeps_cache_ret keeps_cache_raise keeps_cache_lift
  keeps_cache_acquire keeps_cache_except keeps_cache_execute keeps_cache_fetch
  keeps_cache_fetchrow : cache.

Lemma keeps_cache_ensure {DB} (connection : Connection DB) self to_bean :
  keeps_cache (Table._ensure_beans connection self to_bean).
Proof.
  unfold Table._ensure_beans. apply keeps_cache_acquire.
  apply keeps_cache_bind; [eauto with cache|]. intros r.
  destruct (negb (truthy_row r)); eauto with cache.
Qed.

Lemma keeps_cache_all {DB} (connection : Connection DB) self :
  keeps_cache (Table.all connection self).
Proof. unfold Table.all. eauto with cache. Qed.

Lemma keeps_cache_find {DB} (connection : Connection DB) self kwargs :
  keeps_cache (Table.find connection self kwargs).
Proof.
  unfold Table.find. apply keeps_cache_acquire, keeps_cache_except; [|eauto with cache].
  destruct (truthy kwargs); [|apply keeps_cache_all].
  apply keeps_cache_bind; eauto with cache.
Qed.

Lemma keeps_cache_find_one {DB} (connection : Connection DB) self kwargs :
  keeps_cache (Table.find_one connection self kwargs).
Proof.
  unfold Table.find_one. apply keeps_cache_acquire, keeps_cache_except; [|eauto with cache].
  destruct (truthy kwargs); [|eauto with cache].
  apply keeps_cache_bind; eauto with cache.
Qed.

Lemma keeps_cache_insert {DB} (connection : Connection DB) self kwargs :
  keeps_cache (Table.insert connection self kwargs).
Proof.
  unfold Table.insert. destruct (negb (truthy kwargs)); [eauto with cache|].
  apply keeps_cache_bind; [apply keeps_cache_ensure|]. eauto with cache.
Qed.

Lemma keeps_cache_update {DB} (connection : Connection DB) self match_ kwargs :
  keeps_cache (Table.update connection self match_ kwargs).
Proof.
  unfold Table.update. destruct (negb (truthy kwargs)); [eauto with cache|].
  apply keeps_cache_bind; [apply keeps_cache_ensure|]. intros _.
  destruct (Table._build_update_query _ _ _). eauto with cache.
Qed.

Lemma keeps_cache_upsert {DB} (connection : Connection DB) self match_ kwargs :
  keeps_cache (Table.upsert connection self match_ kwargs).
Proof.
  unfold Table.upsert. destruct (negb (truthy kwargs)); [eauto with cache|].
  apply keeps_cache_bind; [apply keeps_cache_ensure|]. intros _. cbv zeta.
  apply keeps_cache_bind; [apply keeps_cache_find_one|]. intros found.
  destruct (truthy_row found); [apply keeps_cache_update|apply keeps_cache_insert].
Qed.

Lemma keeps_cache_delete {DB} (connection : Connection DB) self kwargs :
  keeps_cache (Table.delete connection self kwargs).
Proof.
  unfold Table.delete. apply keeps_cache_acquire.
  destruct (truthy kwargs); [|eauto with cache]. cbv zeta.
  apply keeps_cache_bind; [eauto with cache|]. intros ?.
  apply keeps_cache_bind; eauto with cache.
Qed.

Lemma drop_run {DB} (connection : Connection DB) (self : Table) (w : world DB) :
  Table.drop connection self w
  = let statement := "DROP TABLE " +:+ _name self +:+ ";" in
    match execute connection statement [] (_pool w) with
    | (Raise e, d) => (Raise e, did w d [Acquire; Execute statement []; Release])
    | (Ok _, d) =>
        match _tables w !! _name self with
        | None =>
            (Raise (KeyError (_name self)),
             did w d [Acquire; Execute statement []; Release])
        | Some _ =>
            (Ok (),
             {| _pool := d; _tables := base.delete (_name self) (_tables w);
                next_oid := next_oid w;
                io := io w ++ [Acquire; Execute statement []; Release] |})
        end
    end.
Proof.
  unfold Table.drop. change (?m ;; ?k) with (m ≫= λ _, k). rewrite bind_run.
  run_coro. cbv zeta. destruct (execute _ _ _ _) as [[[]|e] d]; [|finish_run].
  unfold Table.del_tables. cbn [_tables].
  destruct (_tables w !! _name self); finish_run.
Qed.

(** After [drop] the name is out of the cache exactly when the statement
    went through; otherwise the cache is as before. *)
Lemma drop_tables {DB} (connection : Connection DB) (self : Table) (w : world DB) :
  _tables (Table.drop connection self w).2
  = (if drop_statement_ok connection self w
     then base.delete (_name self) (_tables w) else _tables w)
  ∧ next_oid (Table.drop connection self w).2 = next_oid w.
Proof.
  rewrite drop_run. unfold drop_statement_ok. cbv zeta.
  destruct (execute _ _ _ _) as [[[]|e] d]; [|done].
  destruct (_tables w !! _name self) eqn:E; cbn; [done|].
  by rewrite delete_id.
Qed.

Lemma run_call_tables {DB} (connection : Connection DB) (c : call) (w : world DB) :
  match c with
  | Get _ | Drop _ => True
  | _ => _tables (run_call connection c w) = _tables w
         ∧ next_oid (run_call connection c w) = next_oid w
  end.
Proof.
  destruct c; try done; cbn [run_call].
  - apply keeps_cache_all.
  - apply keeps_cache_find.
  - apply keeps_cache_find_one.
  - apply keeps_cache_insert.
  - apply keeps_cache_update.
  - apply keeps_cache_upsert.
  - apply keeps_cache_delete.
Qed.

Lemma run_call_dom {DB} (connection : Connection DB) (c : call) (w : world DB) :
  dom (_tables (run_call connection c w))
  = match c with
    | Get key => {[key]} ∪ dom (_tables w)
    | Drop self =>
        if drop_statement_ok connection self w
        then dom (_tables w) ∖ {[_name self]} else dom (_tables w)
    | _ => dom (_tables w)
    end.
Proof.
  pose proof (run_call_tables connection c w) as H.
  destruct c; try (by rewrite (proj1 H)).
  - cbn [run_call]. unfold Databean.__getitem__.
    destruct (_tables w !! key) as [t|] eqn:E; cbn.
    + apply (elem_of_dom_2 (D:=gset string)) in E.
      apply set_eq. intros x. rewrite elem_of_union, elem_of_singleton.
      split; [by right|]. by intros [->|].
    + by rewrite dom_insert_L.
  - cbn [run_call]. destruct (drop_tables connection self w) as [-> _].
    destruct (drop_statement_ok connection self w); [|done].
    by rewrite dom_delete_L.
Qed.

Lemma run_script_dom {DB} (connection : Connection DB) (script : list call)
    (w : world DB) (names : gset string) :
  dom (_tables w) = names →
  dom (_tables (run_script connection script w))
  = obtained_not_dropped connection script w names.
Proof.
  revert w names. induction script as [|c script IH]; intros w names Hdom; [done|].
  cbn [run_script obtained_not_dropped]. apply IH.
  rewrite run_call_dom. subst names. by destruct c.
Qed.

Lemma run_call_cache_ok {DB} (connection : Connection DB) (c : call) (w : world DB) :
  cache_ok w →
  cache_ok (run_call connection c w) ∧ next_oid w ≤ next_oid (run_call connection c w).
Proof.
  intros Hok. pose proof (run_call_tables connection c w) as H.
  destruct c;
    try (split; [|lia]; intros key t; rewrite (proj1 H), (proj2 H); apply Hok).
  - cbn [run_call]. unfold Databean.__getitem__.
    destruct (_tables w !! key) as [t|] eqn:E; cbn; [split; [done|lia]|].
    split; [|lia]. intros key' t'. cbn.
    destruct (decide (key = key')) as [->|Hne].
    + rewrite lookup_insert_eq. intros [= <-]. cbn. split; [done|lia].
    + rewrite lookup_insert_ne by done. intros Ht. destruct (Hok _ _ Ht). split; [done|lia].
  - cbn [run_call]. destruct (drop_tables connection self w) as [Ht Hn].
    split; [|lia]. intros key t. rewrite Ht, Hn.
    destruct (drop_statement_ok connection self w); [|apply Hok].
    destruct (decide (_name self = key)) as [->|Hne].
    + by rewrite lookup_delete_eq.
    + rewrite lookup_delete_ne by done. apply Hok.
Qed.

Lemma run_script_cache_ok {DB} (connection : Connection DB) (script : list call)
    (w : world DB) :
  cache_ok w →
  cache_ok (run_script connection script w)
  ∧ next_oid w ≤ next_oid (run_script connection script w)
  ∧ ∀ t, t ∈ handles_of connection script w →
         oid t < next_oid (run_script connection script w).
Proof.
  revert w. induction script as [|c script IH]; intros w Hok.
  - cbn. split_and!; [done|lia|]. intros t Ht. by apply elem_of_nil in Ht.
  - destruct (run_call_cache_ok connection c w Hok) as [Hok' Hle].
    destruct (IH _ Hok') as (Hfin & Hle' & Hhandles).
    cbn [run_script handles_of]. split_and!; [done|lia|].
    intros t [Ht|Ht]%elem_of_app; [|by apply Hhandles].
    assert (oid t < next_oid (run_call connection c w)) as Hlt; [|lia].
    destruct c; try by apply elem_of_nil in Ht.
    cbn [run_call]. revert Ht. unfold Databean.__getitem__.
    destruct (_tables w !! key) as [t0|] eqn:E; cbn;
      intros ->%list_elem_of_singleton; cbn; [|lia].
    by destruct (Hok _ _ E).
Qed.

Lemma cache_ok_connect {DB} (d : DB) : cache_ok (Databean._connect d).
Proof. intros key t. cbn. by rewrite lookup_empty. Qed.

(** C10: after any script of calls on a new bean, the cache holds exactly
    the names obtained through [__getitem__] and not dropped with success
    since. [__getitem__] returns the cached object when there is one and
    leaves the world alone; otherwise it makes an object that was never
    handed out, caches it, and returns that same object the next time.
    [drop] executes [DROP TABLE] and then removes the name from the
    cache; when the statement raises, the exception goes to the caller
    and the cache is as before; when it goes through, the name is out of
    the cache and the next [__getitem__] makes an object that was never
    handed out. *)
Theorem cache_holds_names_obtained_and_not_dropped {DB} (connection : Connection DB)
    (d : DB) (script : list call) (key : string) (self : Table) :
  let w0 := Databean._connect d in
  let w := run_script connection script w0 in
  let statement := "DROP TABLE " +:+ _name self +:+ ";" in
  dom (_tables w) = obtained_not_dropped connection script w0 ∅
  ∧ match _tables w !! key with
    | Some t => Databean.__getitem__ key w = (Ok t, w)
    | None =>
        let t := {| _name := key; oid := next_oid w |} in
        let w' := (Databean.__getitem__ key w).2 in
        (Databean.__getitem__ key w).1 = Ok t
        ∧ _tables w' = <[key := t]> (_tables w)
        ∧ Databean.__getitem__ key w' = (Ok t, w')
        ∧ t ∉ handles_of connection script w0
    end
  ∧ match execute connection statement [] (_pool w) with
    | (Raise e, d') =>
        Table.drop connection self w
        = (Raise e, did w d' [Acquire; Execute statement []; Release])
        ∧ _tables (Table.drop connection self w).2 = _tables w
    | (Ok _, d') =>
        let w' := (Table.drop connection self w).2 in
        io w' = io w ++ [Acquire; Execute statement []; Release]
        ∧ _tables w' = base.delete (_name self) (_tables w)
        ∧ _tables w' !! _name self = None
        ∧ ∃ t, (Databean.__getitem__ (_name self) w').1 = Ok t
               ∧ (t ∉ handles_of connection script w0)
               ∧ ∀ key' t', _tables w !! key' = Some t' → t ≠ t'
    end.
Proof.
  intros w0 w statement.
  destruct (run_script_cache_ok connection script w0 (cache_ok_connect d))
    as (Hok & _ & Hhandles). fold w in Hok, Hhandles.
  split_and!.
  - apply run_script_dom. subst w0. cbn. apply dom_empty_L.
  - unfold Databean.__getitem__.
    destruct (_tables w !! key) as [t|] eqn:E; [done|]. cbn.
    rewrite lookup_insert_eq. split_and!; try done.
    intros Hin%Hhandles. cbn in Hin. lia.
  - rewrite drop_run. fold statement. cbv zeta.
    destruct (execute connection statement [] (_pool w)) as [[[]|e] d'] eqn:Hexec;
      [|done].
    assert (∀ w1 : world DB,
      _tables w1 = base.delete (_name self) (_tables w) → next_oid w1 = next_oid w →
      ∃ t, (Databean.__getitem__ (_name self) w1).1 = Ok t
           ∧ (t ∉ handles_of connection script w0)
           ∧ ∀ key' t', _tables w !! key' = Some t' → t ≠ t') as Hfresh.
    { intros w1 Ht Hn. unfold Databean.__getitem__.
      rewrite Ht, lookup_delete_eq, Hn. cbn.
      exists {| _name := _name self; oid := next_oid w |}. split_and!; [done|..].
      - intros Hin%Hhandles. cbn in Hin. lia.
      - intros key' t' Hc Heq. subst t'. apply Hok in Hc. cbn in Hc. lia. }
    destruct (_tables w !! _name self) as [t|] eqn:E; cbn.
    + split_and!; [done|done|apply lookup_delete_eq|]. by apply Hfresh.
    + split_and!; [done|by rewrite delete_id|done|].
      apply Hfresh; [|done]. cbn. by rewrite delete_id.
Qed.

(** ** Lexing the statements of [_ensure_beans] *)

Section lexing.
Import Postgres.

Lemma rev_app_app (w a b : string) :
  String.rev_app (String.rev_app w a) b = String.rev_app a (w +:+ b).
Proof.
  revert a b. induction w as [|c w IH]; intros a b; [done|].
  cbn [String.rev_app]. by rewrite IH.
Qed.

Lemma flush_rev_app (c : ascii) (w : string) :
  flush (String.rev_app (String c w) "") = [String c w].
Proof.
  assert (∀ w a, ∃ c' r, String.rev_app w (String a "") = String c' r) as Hne.
  { clear. intros w. generalize EmptyString.
    induction w as [|c w IH]; intros r a; cbn; [eauto|]. apply IH. }
  assert (∀ w r a, ∃ c' r', String.rev_app w (String a r) = String c' r') as Hne'.
  { clear. induction w as [|c w IH]; intros r a; cbn; [eauto|]. apply IH. }
  cbn [String.rev_app]. destruct (Hne' w "" c) as (c' & r & E).
  unfold flush. rewrite E, <- E. f_equal. unfold String.rev.
  change (String.rev_app w (String c "")) with (String.rev_app (String c w) "").
  by rewrite rev_app_app, append_nil_r.
Qed.

Lemma lex_go_word (w cur s : string) :
  no_delimiter w = true → lex_go cur (w +:+ s) = lex_go (String.rev_app w cur) s.
Proof.
  revert cur. induction w as [|c w IH]; intros cur Hw; [done|].
  cbn in Hw. apply andb_true_iff in Hw as [Hc Hw].
  apply negb_true_iff, orb_false_iff in Hc as [Hs Hp].
  rewrite append_cons. cbn [lex_go String.rev_app]. rewrite Hs, Hp. by apply IH.
Qed.

(** A word followed by a delimiter is the next word of the text. *)
Lemma lex_word (w s : string) :
  is_word w = true → starts_delimiter s = true → lex (w +:+ s) = w :: lex s.
Proof.
  intros Hw Hs. destruct w as [|c w]; [done|]. cbn [is_word] in Hw.
  unfold lex. rewrite lex_go_word by done.
  destruct s as [|d s]; cbn [lex_go].
  - by rewrite flush_rev_app.
  - cbn [starts_delimiter] in Hs. apply orb_true_iff in Hs.
    destruct (Ascii.is_space d) eqn:Hd.
    + by rewrite flush_rev_app.
    + destruct Hs as [|Hp]; [done|]. rewrite Hp. by rewrite flush_rev_app.
Qed.

Lemma lex_blank (b s : string) : all_blank b = true → lex (b +:+ s) = lex s.
Proof.
  induction b as [|c b IH]; intros Hb; [done|].
  cbn in Hb. apply andb_true_iff in Hb as [Hc Hb].
  rewrite append_cons. unfold lex in *. cbn [lex_go]. rewrite Hc. cbn. by apply IH.
Qed.

Lemma lex_punct (c : ascii) (s : string) :
  is_punct c = true → lex (String c "" +:+ s) = String c "" :: lex s.
Proof.
  intros Hc. rewrite append_cons, append_nil_l. unfold lex. cbn [lex_go].
  rewrite Hc. by destruct c as [[] [] [] [] [] [] [] []].
Qed.

Lemma starts_delimiter_blank (b s : string) :
  all_blank b = true → starts_delimiter s = true → starts_delimiter (b +:+ s) = true.
Proof.
  destruct b as [|c b]; [done|]. rewrite append_cons.
  cbn [all_blank starts_delimiter]. intros [Hc _]%andb_true_iff _.
  unfold is_delimiter. by rewrite Hc.
Qed.

Lemma is_word_tag (cls : pytype) : is_word (VALID_TYPE_MAPPING cls) = true.
Proof. by destruct cls. Qed.

(** The loop of [_ensure_beans] does not use its counter. *)
Lemma enumerate_fmap {A B} (f : A → B) (start : nat) (l : list A) :
  (λ ix : nat * A, f ix.2) <$> enumerate start l = f <$> l.
Proof.
  unfold enumerate. revert start. induction l as [|x l IH]; intros start; [done|].
  rewrite imap_cons. cbn [fmap list_fmap]. f_equal. rewrite <- (IH (S start)).
  f_equal. apply imap_ext. intros i y _. cbn. f_equal. lia.
Qed.

(** Texts joined by a separator that reads as a comma, each text
    reading as a group of words. *)
Lemma lex_joined {A} (render : A → string) (words : A → list string)
    (sep : string) (l : list A) (tail : string) :
  (∀ s, lex (sep +:+ s) = "," :: lex s) →
  starts_delimiter (sep +:+ "") = true →
  (∀ a s, a ∈ l → starts_delimiter s = true → lex (render a +:+ s) = words a ++ lex s) →
  starts_delimiter tail = true →
  lex (String.concat sep (render <$> l) +:+ tail)
  = comma_separated (words <$> l) ++ lex tail.
Proof.
  intros Hsep Hsep' Hrender Htail.
  assert (∀ s, starts_delimiter (sep +:+ s) = true) as Hsep''.
  { intros s. destruct sep; [|done]. exfalso.
    specialize (Hsep ""). by rewrite append_nil_l in Hsep. }
  induction l as [|a l IH]; [done|].
  destruct l as [|b l].
  - cbn. apply Hrender; [apply list_elem_of_here|done].
  - cbn [fmap list_fmap] in *. rewrite concat_cons_cons.
    change (comma_separated (words a :: words b :: (words <$> l)))
      with (words a ++ "," :: comma_separated (words b :: (words <$> l))).
    rewrite !append_assoc, Hrender; [|apply list_elem_of_here|done].
    rewrite Hsep, IH; [by rewrite <- app_assoc|].
    intros a' s Ha'. apply Hrender. by apply list_elem_of_further.
Qed.

(** Reading a text that goes on: the words that are complete at its end
    and the word in progress there do not depend on what follows. *)
Lemma lex_go_app (x cur : string) :
  ∃ toks cur', ∀ s, lex_go cur (x +:+ s) = toks ++ lex_go cur' s.
Proof.
  revert cur. induction x as [|c x IH]; intros cur.
  - exists [], cur. intros s. by rewrite append_nil_l.
  - destruct (Ascii.is_space c) eqn:Hs; [|destruct (is_punct c) eqn:Hp].
    + destruct (IH "") as (toks & cur' & H). exists (flush cur ++ toks), cur'.
      intros s. rewrite append_cons. cbn [lex_go]. by rewrite Hs, H, app_assoc.
    + destruct (IH "") as (toks & cur' & H).
      exists (flush cur ++ String c "" :: toks), cur'.
      intros s. rewrite append_cons. cbn [lex_go]. rewrite Hs, Hp, H.
      by rewrite <- app_assoc.
    + destruct (IH (String c cur)) as (toks & cur' & H). exists toks, cur'.
      intros s. rewrite append_cons. cbn [lex_go]. by rewrite Hs, Hp, H.
Qed.

(** One blank more after a blank adds no word. *)
Lemma lex_double_blank (x y : string) :
  lex (x +:+ " " +:+ " " +:+ y) = lex (x +:+ " " +:+ y).
Proof.
  unfold lex. destruct (lex_go_app x "") as (toks & cur & H).
  rewrite !H. reflexivity.
Qed.

(** A semicolon at the end of a text is one word more at the end. *)
Lemma lex_final_semicolon (x : string) : lex (x +:+ ";") = lex x ++ [";"].
Proof.
  unfold lex. destruct (lex_go_app x "") as (toks & cur & H).
  rewrite <- (append_nil_r x) at 2. rewrite !H. cbn. by rewrite <- app_assoc.
Qed.

(** The further conditions of a select read the same with and without
    the blank between two of them. *)
Lemma lex_and_conditions_spaced (x : string) (i : nat) (ks : list string) (tail : string) :
  lex (x +:+ Spec.and_conditions_spaced i ks +:+ tail)
  = lex (x +:+ Spec.and_conditions i ks +:+ tail).
Proof.
  revert x i. induction ks as [|k ks IH]; intros x i; [done|].
  destruct ks as [|k' ks].
  - cbn [Spec.and_conditions_spaced Spec.and_conditions]. done.
  - change (Spec.and_conditions_spaced i (k :: k' :: ks))
      with (" AND " +:+ k +:+ " = " +:+ Spec.placeholder i
              +:+ " " +:+ Spec.and_conditions_spaced (S i) (k' :: ks)).
    change (Spec.and_conditions i (k :: k' :: ks))
      with (" AND " +:+ k +:+ " = " +:+ Spec.placeholder i
              +:+ Spec.and_conditions (S i) (k' :: ks)).
    set (x' := x +:+ " AND " +:+ k +:+ " = " +:+ Spec.placeholder i).
    replace (x +:+ (" AND " +:+ k +:+ " = " +:+ Spec.placeholder i
               +:+ " " +:+ Spec.and_conditions_spaced (S i) (k' :: ks)) +:+ tail)
      with ((x' +:+ " ") +:+ Spec.and_conditions_spaced (S i) (k' :: ks) +:+ tail)
      by (subst x'; by rewrite !append_assoc).
    rewrite IH.
    replace (x +:+ (" AND " +:+ k +:+ " = " +:+ Spec.placeholder i
               +:+ Spec.and_conditions (S i) (k' :: ks)) +:+ tail)
      with (x' +:+ Spec.and_conditions (S i) (k' :: ks) +:+ tail)
      by (subst x'; by rewrite !append_assoc).
    change (Spec.and_conditions (S i) (k' :: ks))
      with (" " +:+ "AND " +:+ k' +:+ " = " +:+ Spec.placeholder (S i)
              +:+ Spec.and_conditions (S (S i)) ks).
    rewrite !append_assoc. apply lex_double_blank.
Qed.

End lexing.

Section statements.
Import Postgres.

Ltac lex_step :=
  first
    [ rewrite lex_blank by reflexivity
    | rewrite lex_punct by reflexivity
    | rewrite lex_word by (first [reflexivity | assumption | apply is_word_tag]) ].

Lemma lex_column (kv : string * pyvalue) (s : string) :
  is_word kv.1 = true → starts_delimiter s = true →
  lex ((kv.1 +:+ " " +:+ VALID_TYPE_MAPPING (type kv.2)) +:+ s)
  = [kv.1; mapType kv.2] ++ lex s.
Proof.
  intros Hk Hs. rewrite !append_assoc.
  rewrite lex_word by done. rewrite (lex_blank " ") by done.
  by rewrite lex_word by (done || apply is_word_tag).
Qed.

Lemma lex_addition (kv : string * pyvalue) (s : string) :
  is_word kv.1 = true → starts_delimiter s = true →
  lex (("ADD COLUMN IF NOT EXISTS " +:+ kv.1 +:+ " "
          +:+ VALID_TYPE_MAPPING (type kv.2)) +:+ s)
  = ["ADD"; "COLUMN"; "IF"; "NOT"; "EXISTS"; kv.1; mapType kv.2] ++ lex s.
Proof.
  intros Hk Hs. rewrite !append_assoc.
  change ("ADD COLUMN IF NOT EXISTS " +:+ ?x)
    with ("ADD" +:+ " " +:+ "COLUMN" +:+ " " +:+ "IF" +:+ " " +:+ "NOT" +:+ " "
            +:+ "EXISTS" +:+ " " +:+ x).
  do 10 lex_step. rewrite lex_word by done. rewrite (lex_blank " ") by done.
  by rewrite lex_word by (done || apply is_word_tag).
Qed.

Lemma Forall_is_word_keys (record : kwargs_t) (kv : string * pyvalue) :
  Forall (λ key, is_word key = true) (keys record) → kv ∈ record → is_word kv.1 = true.
Proof.
  intros Hall Hin. rewrite Forall_forall in Hall. apply Hall.
  unfold keys. apply list_elem_of_fmap. eauto.
Qed.

(** The [CREATE TABLE] text reads as [CREATE TABLE <id> (], the
    identity column, one column per key of the record, [) ;]. *)
Lemma lex_create_query (self : Table) (k : string) (v : pyvalue) (rest : kwargs_t) :
  is_word (_name self) = true →
  Forall (λ key, is_word key = true) (keys ((k, v) :: rest)) →
  lex (Table.create_query self ((k, v) :: rest))
  = create_table_words (_name self) ((k, v) :: rest).
Proof.
  intros Hname Hkeys. unfold Table.create_query, create_table_words. cbv zeta.
  rewrite (enumerate_fmap (λ kv : string * pyvalue,
             kv.1 +:+ " " +:+ VALID_TYPE_MAPPING (type kv.2))).
  change ("CREATE TABLE " +:+ ?x) with ("CREATE" +:+ " " +:+ "TABLE" +:+ " " +:+ x).
  change ("_id serial PRIMARY KEY," +:+ ?x)
    with ("_id" +:+ " " +:+ "serial" +:+ " " +:+ "PRIMARY" +:+ " " +:+ "KEY"
            +:+ "," +:+ x).
  change (");" +:+ ?x) with (")" +:+ ";" +:+ x).
  do 20 lex_step.
  rewrite (lex_joined _ (λ kv, [kv.1; mapType kv.2])).
  - do 5 lex_step. change (lex (spaces 20)) with (@nil string). reflexivity.
  - intros s. rewrite !append_assoc. by do 3 lex_step.
  - done.
  - intros kv s Hin Hs. apply lex_column; [|done].
    by apply (Forall_is_word_keys _ _ Hkeys).
  - done.
Qed.

(** The [ALTER TABLE] text reads as [ALTER TABLE <id>], one
    [ADD COLUMN IF NOT EXISTS] per key of the record, [;]. *)
Lemma lex_alter_query (self : Table) (k : string) (v : pyvalue) (rest : kwargs_t) :
  is_word (_name self) = true →
  Forall (λ key, is_word key = true) (keys ((k, v) :: rest)) →
  lex (Table.alter_query self ((k, v) :: rest))
  = alter_table_words (_name self) ((k, v) :: rest).
Proof.
  intros Hname Hkeys. unfold Table.alter_query, alter_table_words. cbv zeta.
  rewrite (enumerate_fmap (λ kv : string * pyvalue,
             "ADD COLUMN IF NOT EXISTS " +:+ kv.1 +:+ " "
               +:+ VALID_TYPE_MAPPING (type kv.2))).
  change ("ALTER TABLE " +:+ ?x) with ("ALTER" +:+ " " +:+ "TABLE" +:+ " " +:+ x).
  do 9 lex_step.
  rewrite (lex_joined _ (λ kv, ["ADD"; "COLUMN"; "IF"; "NOT"; "EXISTS";
                                kv.1; mapType kv.2])).
  - do 2 lex_step. change (lex (spaces 20)) with (@nil string). reflexivity.
  - intros s. rewrite !append_assoc. by do 2 lex_step.
  - done.
  - intros kv s Hin Hs. apply lex_addition; [|done].
    by apply (Forall_is_word_keys _ _ Hkeys).
  - done.
Qed.

End statements.

(** ** The words of the select statement *)

(** The text built for the filter [{a: 1, b: 2, c: 3}], and its words. *)
Example select_abc_words :
  Postgres.lex "SELECT * FROM t WHERE a = $1 AND b = $2  AND c = $3;"
  = ["SELECT"; "*"; "FROM"; "t"; "WHERE"; "a"; "="; "$1";
     "AND"; "b"; "="; "$2"; "AND"; "c"; "="; "$3"; ";"]
  ∧ Postgres.lex (Spec.select_text "t" "a" ["b"; "c"])
    = ["SELECT"; "*"; "FROM"; "t"; "WHERE"; "a"; "="; "$1";
       "AND"; "b"; "="; "$2"; "AND"; "c"; "="; "$3"].
Proof. split; vm_compute; reflexivity. Qed.

Lemma lex_select_text_closed (id k : string) (ks : list string) :
  Postgres.lex (Spec.select_text_closed id k ks)
  = Postgres.lex (Spec.select_text id k ks)
      ++ match ks with [] => [] | _ :: _ => [";"] end.
Proof.
  unfold Spec.select_text_closed, Spec.select_text. destruct ks as [|k' ks].
  - by rewrite app_nil_r.
  - set (base := "SELECT * FROM " +:+ id +:+ " WHERE " +:+ k +:+ " = $1").
    replace ("SELECT * FROM " +:+ id +:+ " WHERE " +:+ k +:+ " = $1"
               +:+ Spec.and_conditions_spaced 2 (k' :: ks) +:+ ";")
      with (base +:+ Spec.and_conditions_spaced 2 (k' :: ks) +:+ ";")
      by (subst base; by rewrite !append_assoc).
    replace ("SELECT * FROM " +:+ id +:+ " WHERE " +:+ k +:+ " = $1"
               +:+ Spec.and_conditions 2 (k' :: ks))
      with (base +:+ Spec.and_conditions 2 (k' :: ks))
      by (subst base; by rewrite !append_assoc).
    rewrite lex_and_conditions_spaced, <- append_assoc.
    apply lex_final_semicolon.
Qed.

(** C9: for a filter with at least one key the select builder gives a
    text that reads, word for word, as [SELECT * FROM <id> WHERE <k1> =
    $1] followed by [ AND <ki> = $i] for each further key; for one key
    it is that text to the letter, and for more keys it has a closing
    semicolon and a second blank before each [AND] from the second on,
    neither of which changes its words but for the final [;]. [find] and
    [find_one] fetch with that text and the filter values in key order;
    with an empty filter they fetch with an unconditional select and do
    not call the builder; in both cases the outcome is the one of the
    collaborator, so the access to the first key never fails. *)
Theorem select_builder_and_its_callers {DB} (connection : Connection DB)
    (self : Table) (k : string) (v : pyvalue) (rest : kwargs_t) (w : world DB) :
  let kwargs := (k, v) :: rest in
  let text := Spec.select_text_closed (_name self) k (keys rest) in
  let worded := Spec.select_text (_name self) k (keys rest) in
  let unconditional := "SELECT * FROM " +:+ _name self +:+ ";" in
  let unconditional_one := "SELECT * FROM " +:+ _name self +:+ " LIMIT 1;" in
  Table._build_select_query self kwargs = Ok text
  ∧ Postgres.lex text
    = Postgres.lex worded ++ match rest with [] => [] | _ :: _ => [";"] end
  ∧ (keys rest = [] ∧ text = worded
     ∨ keys rest ≠ []
       ∧ text = "SELECT * FROM " +:+ _name self +:+ " WHERE " +:+ k +:+ " = $1"
                  +:+ Spec.and_conditions_spaced 2 (keys rest) +:+ ";")
  ∧ values kwargs = v :: values rest
  ∧ Table.find connection self kwargs w
    = (let '(r, d) := fetch connection text (values kwargs) (_pool w) in
       (recovered [] r, did w d [Acquire; Fetch text (values kwargs); Release]))
  ∧ Table.find_one connection self kwargs w
    = (let '(r, d) := fetchrow connection text (values kwargs) (_pool w) in
       (recovered None r, did w d [Acquire; Fetchrow text (values kwargs); Release]))
  ∧ Table.find connection self [] w
    = (let '(r, d) := fetch connection unconditional [] (_pool w) in
       (recovered [] r,
        did w d [Acquire; Acquire; Fetch unconditional []; Release; Release]))
  ∧ Table.find_one connection self [] w
    = (let '(r, d) := fetchrow connection unconditional_one [] (_pool w) in
       (recovered None r, did w d [Acquire; Fetchrow unconditional_one []; Release])).
Proof.
  intros kwargs text worded unconditional unconditional_one. split_and!.
  - apply _build_select_query_text.
  - subst text worded. rewrite lex_select_text_closed. by destruct rest.
  - subst text worded. unfold Spec.select_text_closed, Spec.select_text.
    destruct (keys rest) as [|k' ks]; [left|right]; split; done.
  - done.
  - apply find_run.
  - apply find_one_run.
  - apply find_run_nil.
  - apply find_one_run_nil.
Qed.

(** ** The schema reconciler *)

Lemma _ensure_beans_run {DB} (connection : Connection DB) (self : Table)
    (to_bean : kwargs_t) (w : world DB) :
  Table._ensure_beans connection self to_bean w
  = let lookup := "SELECT * FROM pg_tables WHERE tablename = $1" in
    match fetchrow connection lookup [VStr (_name self)] (_pool w) with
    | (Raise e, d) =>
        (Raise e, did w d [Acquire; Fetchrow lookup [VStr (_name self)]; Release])
    | (Ok results, d) =>
        let statement :=
          if truthy_row results then Table.alter_query self to_bean
          else Table.create_query self to_bean in
        let '(r, d') := execute connection statement [] d in
        (r, did w d' [Acquire; Fetchrow lookup [VStr (_name self)];
                      Execute statement []; Release])
    end.
Proof.
  unfold Table._ensure_beans. run_coro. cbv zeta.
  destruct (fetchrow _ _ _ _) as [[results|e] d]; [|finish_run].
  destruct (truthy_row results); cbn [negb];
    destruct (execute _ _ _ _) as [r d']; finish_run.
Qed.

Lemma insert_run {DB} (connection : Connection DB) (self : Table)
    (k : string) (v : pyvalue) (rest : kwargs_t) (w : world DB) :
  let record := (k, v) :: rest in
  Table.insert connection self record w
  = match Table._ensure_beans connection self record w with
    | (Raise e, w1) => (Raise e, w1)
    | (Ok _, w1) =>
        let query := Table._build_insert_query self record in
        let '(r, d) := execute connection query (values record) (_pool w1) in
        (r, did w1 d [Acquire; Execute query (values record); Release])
    end.
Proof.
  intros record. unfold Table.insert. cbn [truthy record negb].
  change (?m ;; ?k) with (m ≫= λ _, k). rewrite bind_run.
  destruct (Table._ensure_beans connection self record w) as [[[]|e] w1]; [|done].
  run_coro. cbv zeta. destruct (execute _ _ _ _) as [r d]. finish_run.
Qed.

Lemma update_run {DB} (connection : Connection DB) (self : Table) (match_ : list string)
    (k : string) (v : pyvalue) (rest : kwargs_t) (w : world DB) :
  let record := (k, v) :: rest in
  Table.update connection self match_ record w
  = match Table._ensure_beans connection self record w with
    | (Raise e, w1) => (Raise e, w1)
    | (Ok _, w1) =>
        let built := Table._build_update_query self match_ record in
        let '(r, d) := execute connection built.1 built.2 (_pool w1) in
        (r, did w1 d [Acquire; Execute built.1 built.2; Release])
    end.
Proof.
  intros record. unfold Table.update. cbn [truthy record negb].
  change (?m ;; ?k) with (m ≫= λ _, k). rewrite bind_run.
  destruct (Table._ensure_beans connection self record w) as [[[]|e] w1]; [|done].
  cbv zeta. destruct (Table._build_update_query self match_ record) as [query vals].
  run_coro. cbn [fst snd]. destruct (execute _ _ _ _) as [r d]. finish_run.
Qed.

Lemma upsert_run {DB} (connection : Connection DB) (self : Table) (match_ : list string)
    (k : string) (v : pyvalue) (rest : kwargs_t) (w : world DB) :
  let record := (k, v) :: rest in
  Table.upsert connection self match_ record w
  = match Table._ensure_beans connection self record w with
    | (Raise e, w1) => (Raise e, w1)
    | (Ok _, w1) =>
        match Table.find_one connection self (matching match_ record) w1 with
        | (Raise e, w2) => (Raise e, w2)
        | (Ok found, w2) =>
            if truthy_row found
            then Table.update connection self (match_ ++ ["_id"]) record w2
            else Table.insert connection self record w2
        end
    end.
Proof.
  intros record. unfold Table.upsert. cbn [truthy record negb].
  change (?m ;; ?k) with (m ≫= λ _, k). rewrite !bind_run.
  destruct (Table._ensure_beans connection self record w) as [[[]|e] w1]; [|done].
  cbv zeta. rewrite bind_run.
  destruct (Table.find_one _ _ _ _) as [[found|e] w2]; [|done].
  by destruct (truthy_row found).
Qed.

(** C8: for a record with at least one key, [upsert] first reconciles
    the schema (the lookup in [pg_tables], then the [ALTER TABLE] or the
    [CREATE TABLE] statement); then fetches one row with the select
    built from the record restricted to the keys that are in the match
    sequence, bound to the values of that restriction, or with [SELECT *
    FROM <id> LIMIT 1;] when no key of the record is in the match
    sequence; when a row with at least one column comes back it
    reconciles the schema again and executes the statement of the update
    builder for the match sequence with [_id] appended; when no row
    comes back, or the table is undefined, it reconciles the schema
    again and executes the insert statement with all the values of the
    record. Every statement is sent on a connection of its own, and the
    first exception ends the call. *)
Theorem upsert_finds_then_updates_or_inserts {DB} (connection : Connection DB)
    (self : Table) (match_ : list string) (k : string) (v : pyvalue)
    (rest : kwargs_t) (w : world DB) :
  let record := (k, v) :: rest in
  let name := _name self in
  let lookup := "SELECT * FROM pg_tables WHERE tablename = $1" in
  let restricted := matching match_ record in
  let select :=
    match restricted with
    | [] => "SELECT * FROM " +:+ name +:+ " LIMIT 1;"
    | (k1, v1) :: further => Spec.select_text_closed name k1 (keys further)
    end in
  let update_statement := Table._build_update_query self (match_ ++ ["_id"]) record in
  let insert_statement := (Table._build_insert_query self record, values record) in
  let reconciled (w0 : world DB) (next : world DB → outcome unit * world DB) :=
    match fetchrow connection lookup [VStr name] (_pool w0) with
    | (Raise e, d) =>
        (Raise e, did w0 d [Acquire; Fetchrow lookup [VStr name]; Release])
    | (Ok results, d) =>
        let schema :=
          if truthy_row results then Table.alter_query self record
          else Table.create_query self record in
        match execute connection schema [] d with
        | (Raise e, d') =>
            (Raise e, did w0 d' [Acquire; Fetchrow lookup [VStr name];
                                 Execute schema []; Release])
        | (Ok _, d') =>
            next (did w0 d' [Acquire; Fetchrow lookup [VStr name];
                             Execute schema []; Release])
        end
    end in
  let written (main : string * list pyvalue) (w0 : world DB) :=
    reconciled w0 (λ w1,
      let '(r, d) := execute connection main.1 main.2 (_pool w1) in
      (r, did w1 d [Acquire; Execute main.1 main.2; Release])) in
  keys restricted = filter (λ key, key ∈ match_) (keys record)
  ∧ Table.upsert connection self match_ record w
    = reconciled w (λ w1,
        let '(r, d) := fetchrow connection select (values restricted) (_pool w1) in
        let w2 := did w1 d [Acquire; Fetchrow select (values restricted); Release] in
        match recovered None r with
        | Raise e => (Raise e, w2)
        | Ok found =>
            if truthy_row found then written update_statement w2
            else written insert_statement w2
        end).
Proof.
  intros record name lookup restricted select update_statement insert_statement
    reconciled written.
  split; [apply matching_keys|].
  assert (∀ main w0,
    match Table._ensure_beans connection self record w0 with
    | (Raise e, w1) => (Raise e, w1)
    | (Ok _, w1) =>
        let '(r, d) := execute connection main.1 main.2 (_pool w1) in
        (r, did w1 d [Acquire; Execute main.1 main.2; Release])
    end = written main w0) as Hwritten.
  { intros main w0. subst written reconciled. cbv beta.
    rewrite _ensure_beans_run. cbv zeta. fold lookup name.
    destruct (fetchrow connection lookup _ (_pool w0)) as [[results|e] d]; [|done].
    by destruct (execute connection _ [] d) as [[[]|e] d']. }
  subst record. rewrite upsert_run. cbv zeta.
  rewrite _ensure_beans_run. subst reconciled. cbv beta zeta. fold lookup name.
  destruct (fetchrow connection lookup _ (_pool w)) as [[results|e] d]; [|done].
  destruct (execute connection _ [] d) as [[[]|e] d']; [|done].
  assert (Table.find_one connection self restricted
            (did w d' [Acquire; Fetchrow lookup [VStr name];
                       Execute (if truthy_row results
                                then Table.alter_query self ((k, v) :: rest)
                                else Table.create_query self ((k, v) :: rest)) [];
                       Release])
          = let w1 := did w d' [Acquire; Fetchrow lookup [VStr name];
                       Execute (if truthy_row results
                                then Table.alter_query self ((k, v) :: rest)
                                else Table.create_query self ((k, v) :: rest)) [];
                       Release] in
            let '(r, d) := fetchrow connection select (values restricted) (_pool w1) in
            (recovered None r,
             did w1 d [Acquire; Fetchrow select (values restricted); Release]))
    as Hfind.
  { subst select. destruct restricted as [|[k1 v1] further].
    - by rewrite find_one_run_nil.
    - by rewrite find_one_run. }
  fold restricted. rewrite Hfind. cbv zeta.
  destruct (fetchrow connection select _ _) as [r d2].
  destruct (recovered None r) as [found|e]; [|done].
  destruct (truthy_row found).
  - rewrite update_run. apply Hwritten.
  - rewrite insert_run. apply (Hwritten insert_statement).
Qed.

(** ** The identity column as a key of the record *)

(** C6, at the record [{_id: 1}] for the table [beans]: when the lookup
    in [pg_tables] brings no row, [_ensure_beans] executes one
    statement, and that statement reads [CREATE TABLE beans ( _id serial
    PRIMARY KEY , _id bigint ) ;]: the column [_id] is declared twice,
    once as the identity column and once for the key of the record. The
    statement for a table that is there names the column once, behind
    [ADD COLUMN IF NOT EXISTS]. The same text is built at every run, the
    record being the same. *)
Theorem create_table_declares_id_twice :
  let self := {| _name := "beans"; oid := 0 |} in
  let record := [("_id", VInt 1)] in
  let lookup := "SELECT * FROM pg_tables WHERE tablename = $1" in
  let create := Table.create_query self record in
  Postgres.lex create
  = ["CREATE"; "TABLE"; "beans"; "(";
     "_id"; "serial"; "PRIMARY"; "KEY"; ","; "_id"; "bigint"; ")"; ";"]
  ∧ Postgres.lex (Table.alter_query self record)
    = ["ALTER"; "TABLE"; "beans";
       "ADD"; "COLUMN"; "IF"; "NOT"; "EXISTS"; "_id"; "bigint"; ";"]
  ∧ (∀ DB (connection : Connection DB) (w : world DB),
       match fetchrow connection lookup [VStr "beans"] (_pool w) with
       | (Ok None, d) | (Ok (Some []), d) =>
           Table._ensure_beans connection self record w
           = (let '(r, d') := execute connection create [] d in
              (r, did w d' [Acquire; Fetchrow lookup [VStr "beans"];
                            Execute create []; Release]))
           ∧ Table.insert connection self record w
             = (let '(r, d') := execute connection create [] d in
                let w1 := did w d' [Acquire; Fetchrow lookup [VStr "beans"];
                                    Execute create []; Release] in
                match r with
                | Raise e => (Raise e, w1)
                | Ok _ =>
                    let '(r', d'') :=
                      execute connection "INSERT INTO beans(_id) VALUES($1)" [VInt 1] d' in
                    (r', did w1 d'' [Acquire;
                                     Execute "INSERT INTO beans(_id) VALUES($1)" [VInt 1];
                                     Release])
                end)
       | _ => True
       end).
Proof.
  intros self record lookup create. split_and!.
  - vm_compute. reflexivity.
  - vm_compute. reflexivity.
  - intros DB connection w.
    pose proof (_ensure_beans_run connection self record w) as Hrun.
    pose proof (insert_run connection self "_id" (VInt 1) [] w) as Hins.
    cbv zeta in Hrun, Hins. fold record lookup in Hrun, Hins.
    change (_name self) with "beans" in Hrun.
    destruct (fetchrow connection lookup [VStr "beans"] (_pool w))
      as [[[[|column row]|]|e] d]; [| done | | done].
    + cbn [truthy_row] in Hrun. fold create in Hrun. split; [exact Hrun|].
      rewrite Hins, Hrun. cbv zeta.
      destruct (execute connection create [] d) as [[[]|e] d']; done.
    + cbn [truthy_row] in Hrun. fold create in Hrun. split; [exact Hrun|].
      rewrite Hins, Hrun. cbv zeta.
      destruct (execute connection create [] d) as [[[]|e] d']; done.
Qed.

(** * Further properties *)

(** ** Statement texts and values *)

Lemma _build_select_query_keys (_name : string) (kwargs kwargs' : kwargs_t) :
  keys kwargs = keys kwargs' →
  Builder._build_select_query _name kwargs = Builder._build_select_query _name kwargs'.
Proof.
  intros Hk. destruct kwargs as [|[k v] rest], kwargs' as [|[k' v'] rest'];
    try done.
  rewrite !_build_select_query_text. unfold keys in *. cbn in Hk. congruence.
Qed.

Lemma matching_keys_eq (match_ : list string) (kwargs kwargs' : kwargs_t) :
  keys kwargs = keys kwargs' →
  keys (matching match_ kwargs) = keys (matching match_ kwargs').
Proof. intros Hk. by rewrite !matching_keys, Hk. Qed.

(** The text of a statement is built from the table name and the keys
    alone: two records (or filters) with the same keys in the same
    order give the same insert, select and update text, whatever their
    values; the values only go to the parameter list. *)
Theorem statement_text_ignores_values (_name : string) (match_ : list string)
    (kwargs kwargs' : kwargs_t) :
  keys kwargs = keys kwargs' →
  Builder._build_insert_query _name kwargs = Builder._build_insert_query _name kwargs'
  ∧ Builder._build_select_query _name kwargs = Builder._build_select_query _name kwargs'
  ∧ (Builder._build_update_query _name match_ kwargs).1
    = (Builder._build_update_query _name match_ kwargs').1.
Proof.
  intros Hk. split_and!.
  - by rewrite !_build_insert_query_text, Hk.
  - by apply _build_select_query_keys.
  - rewrite !_build_update_query_shape. cbn [fst].
    by rewrite (matching_keys_eq match_ _ _ Hk), Hk.
Qed.

Lemma statement_text_ignores_values_witness :
  let kwargs := [("a", VInt 1); ("b", VStr "x")] in
  let kwargs' := [("a", VStr "'; DROP TABLE t; --"); ("b", VNone)] in
  keys kwargs = keys kwargs'
  ∧ Builder._build_insert_query "t" kwargs = Builder._build_insert_query "t" kwargs'
  ∧ Builder._build_select_query "t" kwargs = Builder._build_select_query "t" kwargs'
  ∧ (Builder._build_update_query "t" ["a"] kwargs).1
    = (Builder._build_update_query "t" ["a"] kwargs').1.
Proof.
  intros kwargs kwargs'. split; [reflexivity|].
  apply (statement_text_ignores_values "t" ["a"] kwargs kwargs'). reflexivity.
Defined.

Lemma fmap_keys_types {B} (g : string → pytype → B) (kwargs kwargs' : kwargs_t) :
  keys kwargs = keys kwargs' →
  type <$> values kwargs = type <$> values kwargs' →
  (λ kv : string * pyvalue, g kv.1 (type kv.2)) <$> kwargs
  = (λ kv : string * pyvalue, g kv.1 (type kv.2)) <$> kwargs'.
Proof.
  unfold keys, values. revert kwargs'.
  induction kwargs as [|[k v] kwargs IH]; intros [|[k' v'] kwargs'] Hk Ht; try done.
  cbn in *. injection Hk as -> Hk. injection Ht as -> Ht. f_equal. by apply IH.
Qed.

(** The two statements of [_ensure_beans] are built from the table
    name, the keys and the classes of the values: records with the same
    keys and values of the same classes give the same [CREATE TABLE] and
    the same [ALTER TABLE] text. *)
Theorem schema_text_ignores_payloads (self : Table) (to_bean to_bean' : kwargs_t) :
  keys to_bean = keys to_bean' →
  type <$> values to_bean = type <$> values to_bean' →
  Table.create_query self to_bean = Table.create_query self to_bean'
  ∧ Table.alter_query self to_bean = Table.alter_query self to_bean'.
Proof.
  intros Hk Ht. unfold Table.create_query, Table.alter_query. cbv zeta.
  rewrite !(enumerate_fmap (λ kv : string * pyvalue,
              kv.1 +:+ " " +:+ VALID_TYPE_MAPPING (type kv.2))).
  rewrite !(enumerate_fmap (λ kv : string * pyvalue,
              "ADD COLUMN IF NOT EXISTS " +:+ kv.1 +:+ " "
                +:+ VALID_TYPE_MAPPING (type kv.2))).
  rewrite (fmap_keys_types (λ k t, k +:+ " " +:+ VALID_TYPE_MAPPING t) _ _ Hk Ht).
  rewrite (fmap_keys_types
             (λ k t, "ADD COLUMN IF NOT EXISTS " +:+ k +:+ " " +:+ VALID_TYPE_MAPPING t)
             _ _ Hk Ht).
  done.
Qed.

Lemma schema_text_ignores_payloads_witness :
  let self := {| _name := "beans"; oid := 0 |} in
  let to_bean := [("a", VInt 1); ("b", VStr "x")] in
  let to_bean' := [("a", VInt 99); ("b", VStr "); DROP TABLE beans; --")] in
  keys to_bean = keys to_bean'
  ∧ type <$> values to_bean = type <$> values to_bean'
  ∧ Table.create_query self to_bean = Table.create_query self to_bean'
  ∧ Table.alter_query self to_bean = Table.alter_query self to_bean'.
Proof.
  intros self to_bean to_bean'. split; [reflexivity|]. split; [reflexivity|].
  apply (schema_text_ignores_payloads self to_bean to_bean'); reflexivity.
Defined.

(** ** The update builder on its edges *)

Lemma matching_iff (match_ match_' : list string) (kwargs : kwargs_t) :
  (∀ key, key ∈ keys kwargs → (key ∈ match_ ↔ key ∈ match_')) →
  matching match_ kwargs = matching match_' kwargs.
Proof.
  unfold matching, keys. induction kwargs as [|[k v] kwargs IH]; intros H; [done|].
  assert (k ∈ match_ ↔ k ∈ match_') as Hk by (apply H; cbn; apply list_elem_of_here).
  assert (filter (λ kv : string * pyvalue, kv.1 ∈ match_) kwargs
          = filter (λ kv : string * pyvalue, kv.1 ∈ match_') kwargs) as IH'.
  { apply IH. intros key Hkey. apply H. cbn. by apply list_elem_of_further. }
  cbn. repeat case_decide; try tauto; first [exact IH' | f_equal; exact IH'].
Qed.

Lemma matching_none (match_ : list string) (kwargs : kwargs_t) :
  (∀ key, key ∈ keys kwargs → key ∉ match_) → matching match_ kwargs = [].
Proof.
  intros H. rewrite (matching_iff match_ [] kwargs).
  - unfold matching. clear H. induction kwargs as [|kv kwargs IH]; [done|].
    cbn. case_decide as Hin; [|exact IH]. by apply elem_of_nil in Hin.
  - intros key Hkey. split; [by intros ?%H|by intros ?%elem_of_nil].
Qed.

(** When no key of the record is in the match sequence, the update
    builder gives a statement with nothing between [WHERE] and the
    semicolon, and the parameters are the values of the record alone. *)
Theorem update_without_matching_key (_name : string) (match_ : list string)
    (kwargs : kwargs_t) :
  (∀ key, key ∈ keys kwargs → key ∉ match_) →
  Builder._build_update_query _name match_ kwargs
  = ("UPDATE " +:+ _name +:+ " SET "
       +:+ String.concat ", " (Spec.conditions 1 (keys kwargs)) +:+ " WHERE ;",
     values kwargs).
Proof.
  intros H. rewrite _build_update_query_shape, (matching_none _ _ H).
  cbn. by rewrite app_nil_r.
Qed.

Lemma update_without_matching_key_witness :
  (∀ key, key ∈ keys [("b", VInt 2)] → key ∉ ["a"])
  ∧ Builder._build_update_query "t" ["a"] [("b", VInt 2)]
    = ("UPDATE t SET b = $1 WHERE ;", [VInt 2]).
Proof.
  assert (∀ key, key ∈ keys [("b", VInt 2)] → key ∉ ["a"]) as H.
  { intros key Hkey Ha. apply list_elem_of_singleton in Hkey, Ha. by subst. }
  split; [exact H|].
  exact (update_without_matching_key "t" ["a"] [("b", VInt 2)] H).
Defined.

(** Names of the match sequence that are not keys of the record change
    nothing: [update] with such names added behaves as without them. So
    the [_id] that [upsert] adds is without effect unless the record has
    the key [_id]. *)
Theorem update_ignores_names_outside_record {DB} (connection : Connection DB)
    (self : Table) (match_ extra : list string) (kwargs : kwargs_t) (w : world DB) :
  (∀ key, key ∈ extra → key ∉ keys kwargs) →
  Builder._build_update_query (_name self) (match_ ++ extra) kwargs
  = Builder._build_update_query (_name self) match_ kwargs
  ∧ Table.update connection self (match_ ++ extra) kwargs w
    = Table.update connection self match_ kwargs w.
Proof.
  intros H.
  assert (Builder._build_update_query (_name self) (match_ ++ extra) kwargs
          = Builder._build_update_query (_name self) match_ kwargs) as Heq.
  { unfold Builder._build_update_query. cbv zeta.
    rewrite (matching_iff (match_ ++ extra) match_ kwargs); [done|].
    intros key Hkey. rewrite elem_of_app. split; [|by left].
    intros [?|Hin]; [done|]. by apply H in Hin. }
  split; [done|]. unfold Table.update, Table._build_update_query. by rewrite Heq.
Qed.

Lemma update_ignores_names_outside_record_witness :
  let self := {| _name := "beans"; oid := 0 |} in
  let kwargs := [("a", VInt 1); ("b", VStr "y")] in
  (∀ key, key ∈ ["_id"] → key ∉ keys kwargs)
  ∧ Builder._build_update_query "beans" (["a"] ++ ["_id"]) kwargs
    = ("UPDATE beans SET a = $1, b = $2 WHERE a = $3;", [VInt 1; VStr "y"; VInt 1])
  ∧ Table.update one_row self (["a"] ++ ["_id"]) kwargs (Databean._connect 0)
    = Table.update one_row self ["a"] kwargs (Databean._connect 0).
Proof.
  intros self kwargs.
  assert (∀ key, key ∈ ["_id"] → key ∉ keys kwargs) as H.
  { intros key ->%list_elem_of_singleton Hin. cbn in Hin.
    apply elem_of_cons in Hin as [|Hin]; [done|].
    apply list_elem_of_singleton in Hin. done. }
  split; [exact H|].
  destruct (update_ignores_names_outside_record one_row self ["a"] ["_id"] kwargs
              (Databean._connect 0) H) as [Hq Hu].
  split; [|exact Hu]. vm_compute. reflexivity.
Defined.

(** With exactly one key of the record in the match sequence, the
    condition after [WHERE] is numbered [$3] whatever the size of the
    record. The third parameter is the matched value only for a record
    of two keys; for a larger record it is the third value of the
    record, and for a record of one key there is no third parameter. *)
Theorem update_single_match_key (_name : string) (match_ : list string)
    (kwargs : kwargs_t) (m : string) (v : pyvalue) :
  matching match_ kwargs = [(m, v)] →
  let built := Builder._build_update_query _name match_ kwargs in
  built.1 = "UPDATE " +:+ _name +:+ " SET "
              +:+ String.concat ", " (Spec.conditions 1 (keys kwargs))
              +:+ " WHERE " +:+ m +:+ " = $3;"
  ∧ built.2 = values kwargs ++ [v]
  ∧ (length kwargs = 1 → built.2 !! 2 = None)
  ∧ (length kwargs = 2 → built.2 !! 2 = Some v
                         ∧ built.1 = Spec.update_text _name (keys kwargs) [m])
  ∧ (3 ≤ length kwargs → built.2 !! 2 = values kwargs !! 2).
Proof.
  intros Hm built. subst built. rewrite _build_update_query_shape, Hm.
  cbn [fst snd keys values fmap list_fmap length Nat.add Spec.conditions String.concat].
  assert (Spec.placeholder 3 = "$3") as Hp by (vm_compute; reflexivity).
  split_and!.
  - by rewrite Hp, !append_assoc.
  - done.
  - intros Hn. apply lookup_ge_None. rewrite length_app, values_length, Hn. cbn. lia.
  - intros Hn. split.
    + rewrite lookup_app_r by (rewrite values_length; lia).
      by rewrite values_length, Hn.
    + unfold Spec.update_text. rewrite keys_length, Hn. cbn. done.
  - intros Hn. apply lookup_app_l. rewrite values_length. lia.
Qed.

Lemma update_single_match_key_witness :
  let kwargs := [("a", VInt 1); ("b", VInt 2); ("c", VInt 3)] in
  matching ["a"] kwargs = [("a", VInt 1)]
  ∧ (Builder._build_update_query "t" ["a"] kwargs).1
    = "UPDATE t SET a = $1, b = $2, c = $3 WHERE a = $3;"
  ∧ (Builder._build_update_query "t" ["a"] kwargs).2 !! 2 = Some (VInt 3).
Proof.
  intros kwargs. split; [reflexivity|].
  destruct (update_single_match_key "t" ["a"] kwargs "a" (VInt 1) eq_refl)
    as (Htext & _ & _ & _ & Hthird).
  split; [exact Htext|]. rewrite Hthird; [reflexivity|]. cbn. lia.
Defined.

(** ** Connections are scoped *)

Lemma held_after_app (limit held : nat) (evs evs' : list event) :
  held_after limit held (evs ++ evs')
  = match held_after limit held evs with
    | Some held' => held_after limit held' evs'
    | None => None
    end.
Proof.
  revert held. induction evs as [|ev evs IH]; intros held; [done|].
  destruct ev; cbn [app held_after]; try (destruct held; [done|apply IH]).
  case_decide; [apply IH|done].
Qed.

Lemma scoped_weaken {DB A} (need need' peak peak' : nat) (m : coro DB A) :
  need ≤ need' → peak ≤ peak' → scoped need peak m → scoped need' peak' m.
Proof.
  intros Hn Hp Hm w. destruct (Hm w) as (evs & Hio & Hheld).
  exists evs. split; [done|]. intros limit held ??. apply Hheld; lia.
Qed.

Lemma scoped_quiet {DB A} (need peak : nat) (m : coro DB A) :
  (∀ w, io (m w).2 = io w) → scoped need peak m.
Proof.
  intros Hm w. exists []. split; [by rewrite app_nil_r|done].
Qed.

Lemma scoped_bind {DB A B} (need peak : nat) (m : coro DB A) (f : A → coro DB B) :
  scoped need peak m → (∀ a, scoped need peak (f a)) → scoped need peak (m ≫= f).
Proof.
  intros Hm Hf w. rewrite bind_run. destruct (Hm w) as (evs & Hio & Hheld).
  destruct (m w) as [[a|e] w']; cbn in *; [|eauto].
  destruct (Hf a w') as (evs' & Hio' & Hheld').
  exists (evs ++ evs'). split; [by rewrite Hio', Hio, app_assoc|].
  intros limit held ??. rewrite held_after_app, Hheld by done. by apply Hheld'.
Qed.

Lemma scoped_acquire {DB A} (peak : nat) (body : coro DB A) :
  scoped 1 peak body → scoped 0 (S peak) (async_with_acquire body).
Proof.
  intros Hb w. unfold async_with_acquire.
  destruct (Hb (log Acquire w)) as (evs & Hio & Hheld).
  destruct (body (log Acquire w)) as [r w']. cbn in *.
  exists (Acquire :: evs ++ [Release]). split.
  - rewrite Hio. by rewrite <- !app_assoc.
  - intros limit held _ Hroom. cbn [held_after].
    rewrite decide_True by lia. rewrite held_after_app, Hheld by lia. done.
Qed.

Lemma scoped_except {DB A} (need peak : nat) (body handler : coro DB A) :
  scoped need peak body → scoped need peak handler →
  scoped need peak (except_UndefinedTableError body handler).
Proof.
  intros Hb Hh w. unfold except_UndefinedTableError.
  destruct (Hb w) as (evs & Hio & Hheld).
  destruct (body w) as [[a|e] w']; [eauto|]. cbn in *.
  destruct e; eauto.
  destruct (Hh w') as (evs' & Hio' & Hheld').
  exists (evs ++ evs'). split; [by rewrite Hio', Hio, app_assoc|].
  intros limit held ??. rewrite held_after_app, Hheld by done. by apply Hheld'.
Qed.

Lemma scoped_execute {DB} (connection : Connection DB) q args :
  scoped 1 0 (Table.connection_execute connection q args).
Proof.
  intros w. exists [Execute q args]. unfold Table.connection_execute.
  destruct (execute _ _ _ _). split; [done|]. intros limit [|held] ??; [lia|done].
Qed.

Lemma scoped_fetch {DB} (connection : Connection DB) q args :
  scoped 1 0 (Table.connection_fetch connection q args).
Proof.
  intros w. exists [Fetch q args]. unfold Table.connection_fetch.
  destruct (fetch _ _ _ _). split; [done|]. intros limit [|held] ??; [lia|done].
Qed.

Lemma scoped_fetchrow {DB} (connection : Connection DB) q args :
  scoped 1 0 (Table.connection_fetchrow connection q args).
Proof.
  intros w. exists [Fetchrow q args]. unfold Table.connection_fetchrow.
  destruct (fetchrow _ _ _ _). split; [done|]. intros limit [|held] ??; [lia|done].
Qed.

Lemma scoped_ensure {DB} (connection : Connection DB) self to_bean :
  scoped 0 1 (Table._ensure_beans connection self to_bean).
Proof.
  unfold Table._ensure_beans. apply scoped_acquire, scoped_bind.
  - apply scoped_fetchrow.
  - intros r. destruct (negb (truthy_row r)); apply scoped_execute.
Qed.

Lemma scoped_all {DB} (connection : Connection DB) self :
  scoped 0 1 (Table.all connection self).
Proof.
  unfold Table.all. apply scoped_acquire, scoped_except.
  - apply scoped_fetch.
  - by apply scoped_quiet.
Qed.

Lemma scoped_find {DB} (connection : Connection DB) self kwargs :
  scoped 0 2 (Table.find connection self kwargs)
  ∧ (kwargs ≠ [] → scoped 0 1 (Table.find connection self kwargs)).
Proof.
  unfold Table.find. split.
  - apply scoped_acquire, scoped_except; [|by apply scoped_quiet].
    destruct (truthy kwargs).
    + apply scoped_bind; [by apply scoped_quiet|]. intros q.
      eapply scoped_weaken; [| |apply scoped_fetch]; lia.
    + eapply scoped_weaken; [| |apply scoped_all]; lia.
  - intros Hne. destruct kwargs; [done|]. cbn [truthy].
    apply scoped_acquire, scoped_except; [|by apply scoped_quiet].
    apply scoped_bind; [by apply scoped_quiet|]. intros q. apply scoped_fetch.
Qed.

Lemma scoped_find_one {DB} (connection : Connection DB) self kwargs :
  scoped 0 1 (Table.find_one connection self kwargs).
Proof.
  unfold Table.find_one. apply scoped_acquire, scoped_except; [|by apply scoped_quiet].
  destruct (truthy kwargs); [|apply scoped_fetchrow].
  apply scoped_bind; [by apply scoped_quiet|]. intros q. apply scoped_fetchrow.
Qed.

Lemma scoped_insert {DB} (connection : Connection DB) self kwargs :
  scoped 0 1 (Table.insert connection self kwargs).
Proof.
  unfold Table.insert. destruct (negb (truthy kwargs)); [by apply scoped_quiet|].
  apply scoped_bind; [apply scoped_ensure|]. intros _.
  apply scoped_acquire, scoped_execute.
Qed.

Lemma scoped_update {DB} (connection : Connection DB) self match_ kwargs :
  scoped 0 1 (Table.update connection self match_ kwargs).
Proof.
  unfold Table.update. destruct (negb (truthy kwargs)); [by apply scoped_quiet|].
  apply scoped_bind; [apply scoped_ensure|]. intros _.
  destruct (Table._build_update_query _ _ _). apply scoped_acquire, scoped_execute.
Qed.

Lemma scoped_upsert {DB} (connection : Connection DB) self match_ kwargs :
  scoped 0 1 (Table.upsert connection self match_ kwargs).
Proof.
  unfold Table.upsert. destruct (negb (truthy kwargs)); [by apply scoped_quiet|].
  apply scoped_bind; [apply scoped_ensure|]. intros _. cbv zeta.
  apply scoped_bind; [apply scoped_find_one|]. intros found.
  destruct (truthy_row found); [apply scoped_update|apply scoped_insert].
Qed.

Lemma scoped_delete {DB} (connection : Connection DB) self kwargs :
  scoped 0 1 (Table.delete connection self kwargs).
Proof.
  unfold Table.delete. apply scoped_acquire.
  destruct (truthy kwargs); [|apply scoped_execute]. cbv zeta.
  apply scoped_bind; [by apply scoped_quiet|]. intros ?.
  apply scoped_bind; [by apply scoped_quiet|]. intros ?. apply scoped_execute.
Qed.

Lemma scoped_drop {DB} (connection : Connection DB) self :
  scoped 0 1 (Table.drop connection self).
Proof.
  unfold Table.drop. apply scoped_bind.
  - apply scoped_acquire, scoped_execute.
  - intros _. apply scoped_quiet. intros w. unfold Table.del_tables.
    by destruct (_tables w !! _name self).
Qed.

(** Every operation of a table and both pass-through queries only add to
    the log, acquire before they send a statement, and have released
    every connection they acquired when they return or raise. They hold
    one connection at a time; [find] holds at most two, and one when it
    has a filter. *)
Theorem connections_are_released {DB} (connection : Connection DB) (self : Table)
    (match_ : list string) (kwargs : kwargs_t) (query : string) (args : list pyvalue) :
  scoped 0 1 (Table._ensure_beans connection self kwargs)
  ∧ scoped 0 1 (Table.all connection self)
  ∧ scoped 0 2 (Table.find connection self kwargs)
  ∧ (kwargs ≠ [] → scoped 0 1 (Table.find connection self kwargs))
  ∧ scoped 0 1 (Table.find_one connection self kwargs)
  ∧ scoped 0 1 (Table.insert connection self kwargs)
  ∧ scoped 0 1 (Table.update connection self match_ kwargs)
  ∧ scoped 0 1 (Table.upsert connection self match_ kwargs)
  ∧ scoped 0 1 (Table.delete connection self kwargs)
  ∧ scoped 0 1 (Table.drop connection self)
  ∧ scoped 0 1 (Queries.execute_query connection query args)
  ∧ scoped 0 1 (Queries.fetch_query connection query args).
Proof.
  split_and!.
  - apply scoped_ensure.
  - apply scoped_all.
  - apply scoped_find.
  - apply scoped_find.
  - apply scoped_find_one.
  - apply scoped_insert.
  - apply scoped_update.
  - apply scoped_upsert.
  - apply scoped_delete.
  - apply scoped_drop.
  - apply scoped_acquire, scoped_execute.
  - unfold Queries.fetch_query. apply scoped_bind.
    + apply scoped_acquire, scoped_fetch.
    + intros res. by apply scoped_quiet.
Qed.

(** [find] without a filter returns what [all] returns and leaves the
    same database, but it sends the statement on a second connection
    acquired while the first is still held: a pool of one connection
    does not do, a pool of two does. *)
Theorem find_without_filter_holds_two {DB} (connection : Connection DB)
    (self : Table) (w : world DB) :
  let query := "SELECT * FROM " +:+ _name self +:+ ";" in
  let evs := [Acquire; Acquire; Fetch query []; Release; Release] in
  (Table.find connection self [] w).1 = (Table.all connection self w).1
  ∧ _pool (Table.find connection self [] w).2 = _pool (Table.all connection self w).2
  ∧ io (Table.find connection self [] w).2 = io w ++ evs
  ∧ held_after 1 0 evs = None
  ∧ held_after 2 0 evs = Some 0.
Proof.
  cbv zeta. rewrite find_run_nil, all_run. cbv zeta.
  by destruct (fetch _ _ _ _) as [r d].
Qed.

(** ** Exceptions of the collaborator *)



(** When the lookup in [pg_tables] raises, be it
    [UndefinedTableError], the three write operations raise the same
    exception and have sent nothing but the lookup: no [CREATE], no
    [ALTER], no statement of their own. *)
Theorem writes_stop_when_lookup_raises {DB} (connection : Connection DB) (self : Table)
    (match_ : list string) (k : string) (v : pyvalue) (rest : kwargs_t)
    (w : world DB) (e : exn) (d : DB) :
  let record := (k, v) :: rest in
  let lookup := "SELECT * FROM pg_tables WHERE tablename = $1" in
  let stopped := (Raise e, did w d [Acquire; Fetchrow lookup [VStr (_name self)]; Release]) in
  fetchrow connection lookup [VStr (_name self)] (_pool w) = (Raise e, d) →
  Table.insert connection self record w = stopped
  ∧ Table.update connection self match_ record w = stopped
  ∧ Table.upsert connection self match_ record w = stopped.
Proof.
  intros record lookup stopped Hlookup.
  assert (Table._ensure_beans connection self record w = stopped) as Hensure.
  { rewrite _ensure_beans_run. cbv zeta. fold lookup. by rewrite Hlookup. }
  split_and!.
  - subst record. rewrite insert_run. cbv zeta. fold stopped in Hensure.
    by rewrite Hensure.
  - subst record. rewrite update_run. cbv zeta. by rewrite Hensure.
  - subst record. rewrite upsert_run. cbv zeta. by rewrite Hensure.
Qed.

Lemma writes_stop_when_lookup_raises_witness :
  let self := {| _name := "beans"; oid := 0 |} in
  let w := Databean._connect () in
  let lookup := "SELECT * FROM pg_tables WHERE tablename = $1" in
  fetchrow no_tables lookup [VStr "beans"] (_pool w) = (Raise UndefinedTableError, ())
  ∧ (Table.insert no_tables self [("a", VInt 1)] w).1 = Raise UndefinedTableError
  ∧ io (Table.insert no_tables self [("a", VInt 1)] w).2
    = [Acquire; Fetchrow lookup [VStr "beans"]; Release].
Proof.
  intros self w lookup. split; [reflexivity|].
  destruct (writes_stop_when_lookup_raises no_tables self [] "a" (VInt 1) [] w
              UndefinedTableError () eq_refl) as (Hinsert & _ & _).
  rewrite Hinsert. split; reflexivity.
Defined.

(** ** The cache and the operations *)

(** No operation of a table but [drop], and neither pass-through query,
    touches the handle cache or makes a table object; [drop] leaves the
    entries of the other names alone and makes no object either. *)
Theorem only_drop_changes_the_cache {DB} (connection : Connection DB) (self : Table)
    (match_ : list string) (kwargs : kwargs_t) (query : string) (args : list pyvalue)
    (w : world DB) (other : string) :
  keeps_cache (Table._ensure_beans connection self kwargs)
  ∧ keeps_cache (Table.all connection self)
  ∧ keeps_cache (Table.find connection self kwargs)
  ∧ keeps_cache (Table.find_one connection self kwargs)
  ∧ keeps_cache (Table.insert connection self kwargs)
  ∧ keeps_cache (Table.update connection self match_ kwargs)
  ∧ keeps_cache (Table.upsert connection self match_ kwargs)
  ∧ keeps_cache (Table.delete connection self kwargs)
  ∧ keeps_cache (Queries.execute_query connection query args)
  ∧ keeps_cache (Queries.fetch_query connection query args)
  ∧ next_oid (Table.drop connection self w).2 = next_oid w
  ∧ (other ≠ _name self →
     _tables (Table.drop connection self w).2 !! other = _tables w !! other).
Proof.
  split_and!.
  - apply keeps_cache_ensure.
  - apply keeps_cache_all.
  - apply keeps_cache_find.
  - apply keeps_cache_find_one.
  - apply keeps_cache_insert.
  - apply keeps_cache_update.
  - apply keeps_cache_upsert.
  - apply keeps_cache_delete.
  - unfold Queries.execute_query. eauto with cache.
  - unfold Queries.fetch_query. apply keeps_cache_bind; eauto with cache.
  - apply drop_tables.
  - intros Hother. destruct (drop_tables connection self w) as [-> _].
    destruct (drop_statement_ok connection self w); [|done].
    by rewrite lookup_delete_ne.
Qed.

(** A table cannot be dropped twice through the bean: once [drop]
    returned, a second [drop] through an object of the same name raises,
    either the exception of the collaborator or, when the statement goes
    through again, [KeyError] for the name that is no longer cached. *)
Theorem drop_twice_raises {DB} (connection : Connection DB) (self self' : Table)
    (w : world DB) :
  _name self' = _name self →
  (Table.drop connection self w).1 = Ok () →
  let w' := (Table.drop connection self w).2 in
  _tables w' !! _name self = None
  ∧ match execute connection ("DROP TABLE " +:+ _name self +:+ ";") [] (_pool w') with
    | (Ok _, _) => (Table.drop connection self' w').1 = Raise (KeyError (_name self))
    | (Raise e, _) => (Table.drop connection self' w').1 = Raise e
    end.
Proof.
  intros Hname Hok w'.
  assert (_tables w' !! _name self = None) as Hgone.
  { subst w'. revert Hok. rewrite drop_run. cbv zeta.
    destruct (execute _ _ _ _) as [[[]|e] d]; [|done].
    destruct (_tables w !! _name self); [|done]. intros _. apply lookup_delete_eq. }
  split; [done|]. rewrite drop_run, Hname. cbv zeta.
  destruct (execute _ _ _ _) as [[[]|e] d]; [|done]. by rewrite Hgone.
Qed.

Lemma drop_twice_raises_witness :
  let self := {| _name := "beans"; oid := 0 |} in
  let w := (Databean.__getitem__ "beans" (Databean._connect 0)).2 in
  _name self = _name self
  ∧ (Table.drop one_row self w).1 = Ok ()
  ∧ (Table.drop one_row self (Table.drop one_row self w).2).1 = Raise (KeyError "beans").
Proof.
  intros self w. split; [reflexivity|].
  assert ((Table.drop one_row self w).1 = Ok ()) as Hok by (vm_compute; reflexivity).
  split; [exact Hok|].
  destruct (drop_twice_raises one_row self self w eq_refl Hok) as [_ Hagain].
  exact Hagain.
Defined.

(** [len(bean)] is the number of names that iterating over the bean
    gives, each of them once (the order of the iteration is not part of
    the model). Asking for one of these names returns the cached object
    and changes nothing; asking for any other name makes the bean one
    longer and adds that name. *)
Theorem len_counts_the_cached_names {DB} (w : world DB) (key : string) :
  length (Databean.__iter__ w) = Databean.__len__ w
  ∧ NoDup (Databean.__iter__ w)
  ∧ (key ∈ Databean.__iter__ w ↔ is_Some (_tables w !! key))
  ∧ (key ∈ Databean.__iter__ w →
     ∃ t, Databean.__getitem__ key w = (Ok t, w) ∧ _tables w !! key = Some t)
  ∧ (key ∉ Databean.__iter__ w →
     let w' := (Databean.__getitem__ key w).2 in
     Databean.__len__ w' = S (Databean.__len__ w)
     ∧ key ∈ Databean.__iter__ w'
     ∧ ∀ other, other ∈ Databean.__iter__ w → other ∈ Databean.__iter__ w').
Proof.
  assert (∀ (w0 : world DB) k,
    k ∈ Databean.__iter__ w0 ↔ is_Some (_tables w0 !! k)) as Hiter.
  { intros w0 k. unfold Databean.__iter__. rewrite list_elem_of_fmap. split.
    - intros ([k' t] & -> & Hin). apply elem_of_map_to_list in Hin. by eexists.
    - intros [t Ht]. exists (k, t). split; [done|]. by apply elem_of_map_to_list. }
  split_and!.
  - unfold Databean.__iter__, Databean.__len__.
    by rewrite length_fmap, length_map_to_list.
  - apply NoDup_fst_map_to_list.
  - apply Hiter.
  - intros [t Ht]%Hiter. exists t. unfold Databean.__getitem__. by rewrite Ht.
  - intros Hnot. assert (_tables w !! key = None) as Hnone.
    { apply eq_None_not_Some. by rewrite <- Hiter. }
    cbv zeta. unfold Databean.__getitem__. rewrite Hnone. cbn [snd].
    split_and!.
    + unfold Databean.__len__. cbn [_tables]. by apply map_size_insert_None.
    + apply Hiter. cbn [_tables]. rewrite lookup_insert_eq. by eexists.
    + intros other [t Ht]%Hiter. apply Hiter. cbn [_tables].
      destruct (decide (key = other)) as [->|Hne]; [congruence|].
      rewrite lookup_insert_ne by done. by eexists.
Qed.

(** After any script of calls on a new bean, [len(bean)] is the number
    of names obtained through [__getitem__] and not dropped with success
    since. *)
Theorem len_after_script {DB} (connection : Connection DB) (d : DB)
    (script : list call) :
  Databean.__len__ (run_script connection script (Databean._connect d))
  = size (obtained_not_dropped connection script (Databean._connect d) ∅).
Proof.
  unfold Databean.__len__. rewrite <- (run_script_dom connection script _ ∅).
  - by rewrite size_dom.
  - cbn. apply dom_empty_L.
Qed.

(** ** The pass-through queries *)

(** The pass-through queries give back the outcome of the collaborator
    as it is, within one acquired connection. So [all] is [fetch_query]
    of the unconditional select, but for [UndefinedTableError], which
    [fetch_query] raises and [all] turns into the empty list. *)
Theorem pass_through_queries {DB} (connection : Connection DB) (self : Table)
    (query : string) (args : list pyvalue) (w : world DB) :
  Queries.execute_query connection query args w
  = (let '(r, d) := execute connection query args (_pool w) in
     (r, did w d [Acquire; Execute query args; Release]))
  ∧ Queries.fetch_query connection query args w
    = (let '(r, d) := fetch connection query args (_pool w) in
       (r, did w d [Acquire; Fetch query args; Release]))
  ∧ (let raw := Queries.fetch_query connection
                  ("SELECT * FROM " +:+ _name self +:+ ";") [] w in
     Table.all connection self w = (recovered [] raw.1, raw.2)).
Proof.
  assert (∀ q a,
    Queries.fetch_query connection q a w
    = (let '(r, d) := fetch connection q a (_pool w) in
       (r, did w d [Acquire; Fetch q a; Release]))) as Hfetch.
  { intros q a. unfold Queries.fetch_query. rewrite bind_run. run_coro.
    destruct (fetch _ _ _ _) as [[rows|e] d]; finish_run. }
  split_and!.
  - unfold Queries.execute_query. run_coro.
    destruct (execute _ _ _ _) as [r d]. finish_run.
  - apply Hfetch.
  - cbv zeta. rewrite Hfetch, all_run. cbv zeta. by destruct (fetch _ _ _ _).
Qed.

(** ** What a write costs *)

Lemma ensure_ok_log {DB} (connection : Connection DB) (self : Table)
    (to_bean : kwargs_t) (w w1 : world DB) :
  Table._ensure_beans connection self to_bean w = (Ok (), w1) →
  ∃ s, s ∈ [Table.create_query self to_bean; Table.alter_query self to_bean]
       ∧ io w1 = io w ++ [Acquire;
                          Fetchrow "SELECT * FROM pg_tables WHERE tablename = $1"
                            [VStr (_name self)];
                          Execute s []; Release].
Proof.
  rewrite _ensure_beans_run. cbv zeta.
  destruct (fetchrow _ _ _ _) as [[results|e] d]; [|done].
  destruct (truthy_row results); destruct (execute _ _ _ _) as [r d'];
    intros [= -> <-]; eexists; (split; [|done]).
  - apply list_elem_of_further, list_elem_of_here.
  - apply list_elem_of_here.
Qed.

Lemma find_one_log {DB} (connection : Connection DB) (self : Table)
    (kwargs : kwargs_t) (w : world DB) :
  ∃ q args, io (Table.find_one connection self kwargs w).2
            = io w ++ [Acquire; Fetchrow q args; Release].
Proof.
  destruct kwargs as [|[k v] rest].
  - rewrite find_one_run_nil. cbv zeta. destruct (fetchrow _ _ _ _). by eexists _, _.
  - rewrite find_one_run. cbv zeta. destruct (fetchrow _ _ _ _). by eexists _, _.
Qed.

(** An [upsert] that returns has reconciled the schema twice, once
    itself and once more inside the [update] or [insert] it hands over
    to: it acquired four connections one after the other and sent two
    lookups in [pg_tables], two schema statements, one select and one
    statement that writes. *)
Theorem upsert_reconciles_twice {DB} (connection : Connection DB) (self : Table)
    (match_ : list string) (k : string) (v : pyvalue) (rest : kwargs_t)
    (w w' : world DB) :
  let record := (k, v) :: rest in
  let lookup := Fetchrow "SELECT * FROM pg_tables WHERE tablename = $1"
                  [VStr (_name self)] in
  Table.upsert connection self match_ record w = (Ok (), w') →
  ∃ s1 s2 q qargs main,
    io w' = io w ++ [Acquire; lookup; Execute s1 []; Release;
                     Acquire; Fetchrow q qargs; Release;
                     Acquire; lookup; Execute s2 []; Release;
                     Acquire; Execute main.1 main.2; Release]
    ∧ s1 ∈ [Table.create_query self record; Table.alter_query self record]
    ∧ s2 ∈ [Table.create_query self record; Table.alter_query self record]
    ∧ main ∈ [Table._build_update_query self (match_ ++ ["_id"]) record;
              (Table._build_insert_query self record, values record)].
Proof.
  intros record lookup. subst record. rewrite upsert_run. cbv zeta.
  destruct (Table._ensure_beans connection self ((k, v) :: rest) w)
    as [[[]|e] w1] eqn:E1; [|done].
  apply ensure_ok_log in E1 as (s1 & Hs1 & Hio1).
  destruct (find_one_log connection self (matching match_ ((k, v) :: rest)) w1)
    as (q & qargs & Hio2).
  destruct (Table.find_one _ _ _ _) as [[found|e] w2]; [|done]. cbn [snd] in Hio2.
  destruct (truthy_row found).
  - rewrite update_run. cbv zeta.
    destruct (Table._ensure_beans connection self ((k, v) :: rest) w2)
      as [[[]|e] w3] eqn:E3; [|done].
    apply ensure_ok_log in E3 as (s2 & Hs2 & Hio3).
    destruct (execute _ _ _ _) as [r d]. intros [= -> <-].
    exists s1, s2, q, qargs, (Table._build_update_query self (match_ ++ ["_id"])
                               ((k, v) :: rest)).
    split_and!; [|done|done|apply list_elem_of_here].
    unfold did. cbn [io]. rewrite Hio3, Hio2, Hio1. by rewrite <- !app_assoc.
  - rewrite insert_run. cbv zeta.
    destruct (Table._ensure_beans connection self ((k, v) :: rest) w2)
      as [[[]|e] w3] eqn:E3; [|done].
    apply ensure_ok_log in E3 as (s2 & Hs2 & Hio3).
    destruct (execute _ _ _ _) as [r d]. intros [= -> <-].
    exists s1, s2, q, qargs, (Table._build_insert_query self ((k, v) :: rest),
                              values ((k, v) :: rest)).
    split_and!; [|done|done|apply list_elem_of_further, list_elem_of_here].
    unfold did. cbn [io fst snd]. rewrite Hio3, Hio2, Hio1. by rewrite <- !app_assoc.
Qed.

Lemma upsert_reconciles_twice_witness :
  let self := {| _name := "beans"; oid := 0 |} in
  let record := [("a", VInt 1); ("b", VStr "y")] in
  let w := Databean._connect 0 in
  let w' := (Table.upsert one_row self ["a"] record w).2 in
  Table.upsert one_row self ["a"] record w = (Ok (), w')
  ∧ length (io w') = 14.
Proof.
  intros self record w w'.
  assert (Table.upsert one_row self ["a"] record w = (Ok (), w')) as H
    by (vm_compute; reflexivity).
  split; [exact H|].
  destruct (upsert_reconciles_twice one_row self ["a"] "a" (VInt 1) [("b", VStr "y")]
              w w' H) as (s1 & s2 & q & qargs & main & Hio & _).
  rewrite Hio. reflexivity.
Defined.

(** ** The schema before every write *)

(** [insert], [update] and [upsert] run [_ensure_beans] before anything
    else, and their own statement only once it returned. [_ensure_beans]
    first looks the table up in [pg_tables]; when no row comes back it
    executes one statement that reads [CREATE TABLE <id> ( _id serial
    PRIMARY KEY , <col> <mappedType> , ... ) ;] with one column per key
    of the record, and otherwise one statement that reads [ALTER TABLE
    <id> ADD COLUMN IF NOT EXISTS <col> <mappedType> , ... ;] with one
    addition per key, for a table name and keys that are single words. *)
Theorem schema_is_ensured_before_every_write {DB} (connection : Connection DB)
    (self : Table) (match_ : list string) (k : string) (v : pyvalue) (rest : kwargs_t)
    (w : world DB) :
  let record := (k, v) :: rest in
  let lookup := "SELECT * FROM pg_tables WHERE tablename = $1" in
  Postgres.is_word (_name self) = true →
  Forall (λ key, Postgres.is_word key = true) (keys record) →
  Table.insert connection self record w
  = match Table._ensure_beans connection self record w with
    | (Raise e, w') => (Raise e, w')
    | (Ok _, w') =>
        let query := Table._build_insert_query self record in
        let '(r, d) := execute connection query (values record) (_pool w') in
        (r, did w' d [Acquire; Execute query (values record); Release])
    end
  ∧ Table.update connection self match_ record w
    = match Table._ensure_beans connection self record w with
      | (Raise e, w') => (Raise e, w')
      | (Ok _, w') =>
          let built := Table._build_update_query self match_ record in
          let '(r, d) := execute connection built.1 built.2 (_pool w') in
          (r, did w' d [Acquire; Execute built.1 built.2; Release])
      end
  ∧ Table.upsert connection self match_ record w
    = match Table._ensure_beans connection self record w with
      | (Raise e, w') => (Raise e, w')
      | (Ok _, w') =>
          match Table.find_one connection self (matching match_ record) w' with
          | (Raise e, w'') => (Raise e, w'')
          | (Ok found, w'') =>
              if truthy_row found
              then Table.update connection self (match_ ++ ["_id"]) record w''
              else Table.insert connection self record w''
          end
      end
  ∧ Table._ensure_beans connection self record w
    = match fetchrow connection lookup [VStr (_name self)] (_pool w) with
      | (Raise e, d) =>
          (Raise e, did w d [Acquire; Fetchrow lookup [VStr (_name self)]; Release])
      | (Ok results, d) =>
          let statement :=
            if truthy_row results then Table.alter_query self record
            else Table.create_query self record in
          let '(r, d') := execute connection statement [] d in
          (r, did w d' [Acquire; Fetchrow lookup [VStr (_name self)];
                        Execute statement []; Release])
      end
  ∧ Postgres.lex (Table.create_query self record)
    = create_table_words (_name self) record
  ∧ Postgres.lex (Table.alter_query self record)
    = alter_table_words (_name self) record.
Proof.
  intros record lookup Hname Hkeys. split_and!.
  - apply insert_run.
  - apply update_run.
  - apply upsert_run.
  - apply _ensure_beans_run.
  - by apply lex_create_query.
  - by apply lex_alter_query.
Qed.

Lemma schema_is_ensured_before_every_write_witness :
  let self := {| _name := "beans"; oid := 0 |} in
  let record := [("a", VInt 1); ("b", VStr "x")] in
  Postgres.is_word (_name self) = true
  ∧ Forall (λ key, Postgres.is_word key = true) (keys record)
  ∧ Postgres.lex (Table.create_query self record)
    = ["CREATE"; "TABLE"; "beans"; "("; "_id"; "serial"; "PRIMARY"; "KEY"; ",";
       "a"; "bigint"; ","; "b"; "text"; ")"; ";"]
  ∧ Postgres.lex (Table.alter_query self record)
    = ["ALTER"; "TABLE"; "beans"; "ADD"; "COLUMN"; "IF"; "NOT"; "EXISTS"; "a"; "bigint";
       ","; "ADD"; "COLUMN"; "IF"; "NOT"; "EXISTS"; "b"; "text"; ";"].
Proof.
  intros self record.
  assert (Postgres.is_word (_name self) = true) as H1 by reflexivity.
  assert (Forall (λ key, Postgres.is_word key = true) (keys record)) as H2
    by (repeat constructor).
  destruct (schema_is_ensured_before_every_write one_row self ["a"]
              "a" (VInt 1) [("b", VStr "x")] (Databean._connect 0) H1 H2)
    as (_ & _ & _ & _ & Hcreate & Halter).
  split_and!; [exact H1 | exact H2 | |].
  - fold record in Hcreate. rewrite Hcreate. reflexivity.
  - fold record in Halter. rewrite Halter. reflexivity.
Defined.
